(** * WatchChannel: relaying watched users' messages

    A shallow embedding of [bot/cogs/watchchannels/watchchannel.py].

    The cog is an asyncio program: every coroutine runs on one cooperative
    event loop and can only be interleaved with other code at an [await].
    The embedding keeps the attributes of [WatchChannel] in a record
    [State], keeps every consume task created by [create_task] in a task
    table together with the [await] it is suspended at, and gives one
    function per method.  A coroutine is run from one [await] to the next
    by [resume]; what the awaited operation produced (it returned, or it
    raised) is an input chosen by the environment. *)

From stdpp Require Import gmap strings list fin_maps.
From Stdlib Require Import ZArith Lia.

Open Scope Z_scope.

(** ** Values exchanged with the outside world *)

(** JSON values found in the entries returned by the API. *)
Inductive JValue : Type :=
  | JInt (z : Z)
  | JStr (s : string)
  | JNull.

Global Instance JValue_eq_dec : EqDecision JValue.
Proof. solve_decision. Defined.

Definition JValue_enc (v : JValue) : Z + (string + unit) :=
  match v with
  | JInt z => inl z
  | JStr s => inr (inl s)
  | JNull => inr (inr tt)
  end.

Definition JValue_dec (x : Z + (string + unit)) : JValue :=
  match x with
  | inl z => JInt z
  | inr (inl s) => JStr s
  | inr (inr _) => JNull
  end.

Global Instance JValue_countable : Countable JValue.
Proof.
  apply (inj_countable' JValue_enc JValue_dec). by intros [].
Defined.

(** Exceptions that the modelled code raises, catches or lets through.
    [Forbidden] and [NotFound] are subclasses of [HTTPException]. *)
Inductive exn : Type :=
  | CancelledError
  | InvalidStateError
  | AttributeError
  | KeyError
  | HTTPException
  | Forbidden
  | NotFound
  | ClientResponseError
  | OtherError.

Global Instance exn_eq_dec : EqDecision exn.
Proof. solve_decision. Defined.

(** [except discord.HTTPException] *)
Definition is_http (e : exn) : bool :=
  match e with
  | HTTPException | Forbidden | NotFound => true
  | _ => false
  end.

(** [except (errors.Forbidden, errors.NotFound)] *)
Definition is_forbidden_or_notfound (e : exn) : bool :=
  match e with
  | Forbidden | NotFound => true
  | _ => false
  end.

(** What an [await] hands back to the coroutine that was suspended on it. *)
Inductive result : Type :=
  | Returned
  | Raised (e : exn).

Global Instance result_eq_dec : EqDecision result.
Proof. solve_decision. Defined.

(** A [discord.Message], with the attributes the cog reads. *)
Record Msg : Type := {
  msg_id : Z;
  author_id : Z;          (* msg.author.id *)
  channel_id : Z;         (* msg.channel.id *)
  clean_content : string; (* msg.clean_content *)
  attachments : list Z    (* msg.attachments *)
}.

Global Instance Msg_eq_dec : EqDecision Msg.
Proof. solve_decision. Defined.

(** ** Insertion-ordered dictionaries

    Python dictionaries iterate in insertion order, and the drain loop of
    [consume_messages] depends on it; the queues are therefore association
    lists whose keys are kept unique. *)
Module OD.
Section OD.
Context {V : Type}.

(** [d.get(k)] *)
Fixpoint get (k : Z) (d : list (Z * V)) : option V :=
  match d with
  | [] => None
  | (k', v) :: d' => if decide (k' = k) then Some v else get k d'
  end.

(** [d.pop(k, None)], the popped value dropped. *)
Fixpoint pop (k : Z) (d : list (Z * V)) : list (Z * V) :=
  match d with
  | [] => []
  | (k', v) :: d' => if decide (k' = k) then pop k d' else (k', v) :: pop k d'
  end.

(** [f(d[k])] on a [defaultdict]: a missing key is first bound to
    [dflt], at the end of the iteration order. *)
Fixpoint alter_default (dflt : V) (f : V -> V) (k : Z) (d : list (Z * V))
  : list (Z * V) :=
  match d with
  | [] => [(k, f dflt)]
  | (k', v) :: d' =>
      if decide (k' = k) then (k', f v) :: d'
      else (k', v) :: alter_default dflt f k d'
  end.

(** [d.values()] *)
Definition values (d : list (Z * V)) : list V := map snd d.

Definition keys (d : list (Z * V)) : list Z := map fst d.
End OD.
End OD.

(** [defaultdict(lambda: defaultdict(deque))]: user id, then channel id,
    then the pending messages, oldest first. *)
Definition ChannelQueues : Type := list (Z * list Msg).
Definition Queues : Type := list (Z * ChannelQueues).

(** [queue[author][channel].append(msg)] *)
Definition queue_append (m : Msg) (q : Queues) : Queues :=
  OD.alter_default [] (OD.alter_default [] (fun dq => dq ++ [m]) (channel_id m))
    (author_id m) q.

(** The deque of one (author, channel) pair; missing keys read as empty. *)
Definition queue_of (a c : Z) (q : Queues) : list Msg :=
  match OD.get a q with
  | None => []
  | Some chs => default [] (OD.get c chs)
  end.

(** The messages of a queue in the order the drain loop visits them:
    [for ... in q.values(): for ... in ....values(): while dq: popleft()]. *)
Definition chans_flatten (chs : ChannelQueues) : list Msg :=
  concat (OD.values chs).
Definition flatten (q : Queues) : list Msg :=
  concat (map chans_flatten (OD.values q)).

(** [popleft()] on the first deque of the iteration order that is not
    empty; deques met before it are empty and stay in the dictionary. *)
Fixpoint chans_popleft (chs : ChannelQueues) : option (Msg * ChannelQueues) :=
  match chs with
  | [] => None
  | (c, []) :: chs' =>
      match chans_popleft chs' with
      | None => None
      | Some (m, chs'') => Some (m, (c, []) :: chs'')
      end
  | (c, m :: dq) :: chs' => Some (m, (c, dq) :: chs')
  end.

Fixpoint popleft (q : Queues) : option (Msg * Queues) :=
  match q with
  | [] => None
  | (u, chs) :: q' =>
      match chans_popleft chs with
      | Some (m, chs') => Some (m, (u, chs') :: q')
      | None =>
          match popleft q' with
          | None => None
          | Some (m, q'') => Some (m, (u, chs) :: q'')
          end
      end
  end.

(** ** The cog's state *)

(** [MessageHistory] *)
Record MessageHistory : Type := {
  last_author : option Z;
  last_channel : option Z;
  message_count : Z
}.

(** The [await] a consume task is suspended at. *)
Inductive pc : Type :=
  | PcCreated (delay_consumption : bool) (* created, body not entered yet *)
  | PcSleep                  (* [asyncio.sleep(log_delay)] *)
  | PcHeader (m : Msg)       (* [webhook.send] of the header of [m] *)
  | PcBody (m : Msg)         (* [webhook.send] of the content of [m] *)
  | PcAttach (m : Msg)       (* [messages.send_attachments] for [m] *)
  | PcPlaceholder (m : Msg). (* [webhook.send] of the placeholder embed *)

(** An [asyncio.Task] wrapping [consume_messages]. *)
Inductive task : Type :=
  | Running (at_pc : pc)
  | Finished
  | Failed (e : exn)
  | Cancelled.

(** [task.done()] *)
Definition done (t : task) : bool :=
  match t with
  | Running _ => false
  | _ => true
  end.

(** What the cog does that can be observed from outside, in order. *)
Inductive Event : Type :=
  | EvCreateTask (tid : nat)      (* [loop.create_task(consume_messages())] *)
  | EvSleep (seconds : Z)         (* [asyncio.sleep] entered *)
  | EvRelay (m : Msg)             (* [relay_message(m)] entered *)
  | EvHeader (m : Msg)            (* header embed delivered by the webhook *)
  | EvBody (m : Msg)              (* content delivered by the webhook *)
  | EvAttachments (m : Msg)       (* attachments delivered *)
  | EvPlaceholder (m : Msg)       (* placeholder embed delivered *)
  | EvLogTaskFailed (e : exn)     (* "The message queue consume task has failed" *)
  | EvLogSendFailed (e : exn)     (* "Failed to send a message to the webhook" *)
  | EvLogAttachFailed (e : exn)   (* "Failed to send an attachment to the webhook" *)
  | EvLogFetchFailed (e : exn)    (* "Failed to fetch the watched users" *)
  | EvGetChannel (attempt : nat)  (* [bot.get_channel(destination)] *)
  | EvLogNoChannel                (* "Failed to retrieve the text channel" *)
  | EvGetWebhook                  (* [bot.get_webhook_info(webhook_id)] *)
  | EvLogNoWebhook (e : exn)      (* "Failed to fetch webhook" *)
  | EvLogStartFailed              (* "Failed to start the watch channel" *)
  | EvModLogError                 (* modlog: "Error: Failed to initialize" *)
  | EvModLogWarning               (* modlog: "Warning: Failed to retrieve user cache" *)
  | EvRemoveCog                   (* [bot.remove_cog] *)
  | EvApiGet.                     (* [bot.api_client.get] *)

Global Instance Event_eq_dec : EqDecision Event.
Proof. solve_decision. Defined.

(** One entry of the user cache: the API's dictionary for the watch. *)
Abbreviation Entry := (gmap string JValue).

Record State : Type := {
  consume_task : option nat;      (* self._consume_task, an index in [tasks] *)
  tasks : list task;              (* every consume task created so far *)
  watched_users : gmap JValue Entry;
  message_queue : Queues;
  consumption_queue : Queues;
  message_history : MessageHistory;
  retries : nat;
  retry_delay : Z;
  channel : option Z;
  webhook : option Z;
  loaded : bool;                  (* the cog is still registered with the bot *)
  trace : list Event
}.

(** [WatchChannel.__init__], before [start_watchchannel] has run. *)
Definition init : State := {|
  consume_task := None;
  tasks := [];
  watched_users := ∅;
  message_queue := [];
  consumption_queue := [];
  message_history :=
    {| last_author := None; last_channel := None; message_count := 0 |};
  retries := 5;
  retry_delay := 10;
  channel := None;
  webhook := None;
  loaded := true;
  trace := []
|}.

Definition set_consume_task (v : option nat) (st : State) : State :=
  {| consume_task := v; tasks := tasks st; watched_users := watched_users st;
     message_queue := message_queue st; consumption_queue := consumption_queue st;
     message_history := message_history st; retries := retries st;
     retry_delay := retry_delay st; channel := channel st; webhook := webhook st;
     loaded := loaded st; trace := trace st |}.

Definition set_tasks (v : list task) (st : State) : State :=
  {| consume_task := consume_task st; tasks := v; watched_users := watched_users st;
     message_queue := message_queue st; consumption_queue := consumption_queue st;
     message_history := message_history st; retries := retries st;
     retry_delay := retry_delay st; channel := channel st; webhook := webhook st;
     loaded := loaded st; trace := trace st |}.

Definition set_watched_users (v : gmap JValue Entry) (st : State) : State :=
  {| consume_task := consume_task st; tasks := tasks st; watched_users := v;
     message_queue := message_queue st; consumption_queue := consumption_queue st;
     message_history := message_history st; retries := retries st;
     retry_delay := retry_delay st; channel := channel st; webhook := webhook st;
     loaded := loaded st; trace := trace st |}.

Definition set_message_queue (v : Queues) (st : State) : State :=
  {| consume_task := consume_task st; tasks := tasks st;
     watched_users := watched_users st;
     message_queue := v; consumption_queue := consumption_queue st;
     message_history := message_history st; retries := retries st;
     retry_delay := retry_delay st; channel := channel st; webhook := webhook st;
     loaded := loaded st; trace := trace st |}.

Definition set_consumption_queue (v : Queues) (st : State) : State :=
  {| consume_task := consume_task st; tasks := tasks st;
     watched_users := watched_users st;
     message_queue := message_queue st; consumption_queue := v;
     message_history := message_history st; retries := retries st;
     retry_delay := retry_delay st; channel := channel st; webhook := webhook st;
     loaded := loaded st; trace := trace st |}.

Definition set_message_history (v : MessageHistory) (st : State) : State :=
  {| consume_task := consume_task st; tasks := tasks st;
     watched_users := watched_users st;
     message_queue := message_queue st; consumption_queue := consumption_queue st;
     message_history := v; retries := retries st;
     retry_delay := retry_delay st; channel := channel st; webhook := webhook st;
     loaded := loaded st; trace := trace st |}.

Definition set_channel (v : option Z) (st : State) : State :=
  {| consume_task := consume_task st; tasks := tasks st;
     watched_users := watched_users st;
     message_queue := message_queue st; consumption_queue := consumption_queue st;
     message_history := message_history st; retries := retries st;
     retry_delay := retry_delay st; channel := v; webhook := webhook st;
     loaded := loaded st; trace := trace st |}.

Definition set_webhook (v : option Z) (st : State) : State :=
  {| consume_task := consume_task st; tasks := tasks st;
     watched_users := watched_users st;
     message_queue := message_queue st; consumption_queue := consumption_queue st;
     message_history := message_history st; retries := retries st;
     retry_delay := retry_delay st; channel := channel st; webhook := v;
     loaded := loaded st; trace := trace st |}.

Definition set_loaded (v : bool) (st : State) : State :=
  {| consume_task := consume_task st; tasks := tasks st;
     watched_users := watched_users st;
     message_queue := message_queue st; consumption_queue := consumption_queue st;
     message_history := message_history st; retries := retries st;
     retry_delay := retry_delay st; channel := channel st; webhook := webhook st;
     loaded := v; trace := trace st |}.

(** Append one observation to the trace. *)
Definition emit (e : Event) (st : State) : State :=
  {| consume_task := consume_task st; tasks := tasks st;
     watched_users := watched_users st;
     message_queue := message_queue st; consumption_queue := consumption_queue st;
     message_history := message_history st; retries := retries st;
     retry_delay := retry_delay st; channel := channel st; webhook := webhook st;
     loaded := loaded st; trace := trace st ++ [e] |}.

(** ** The methods of [WatchChannel] *)

(** What a call hands back: a value, or an exception that escapes it. *)
Inductive outcome (A : Type) : Type :=
  | Ok (a : A)
  | Raise (e : exn).
Arguments Ok {A} a.
Arguments Raise {A} e.

(** How far a piece of a coroutine got: it suspended at an [await], it
    ran to its end, or an exception escaped it. *)
Inductive step : Type :=
  | Suspend (p : pc)
  | Complete
  | Throw (e : exn).

(** Sequencing inside a coroutine. *)
Definition and_then (x : State * step) (k : State -> State * step)
  : State * step :=
  match x with
  | (st, Complete) => k st
  | other => other
  end.

(** The status of a task whose coroutine let [e] escape. *)
Definition fail (e : exn) : task :=
  if decide (e = CancelledError) then Cancelled else Failed e.

(** The task a handle refers to.  Handles are indices handed out by
    [create_task], so the lookup always succeeds (see [handles_valid]). *)
Definition task_of (st : State) (tid : nat) : task :=
  default Finished (tasks st !! tid).

(** [self.bot.loop.create_task(self.consume_messages(delay_consumption))]:
    the task is only scheduled; its body runs at a later [resume]. *)
Definition create_task (delay_consumption : bool) (st : State) : nat * State :=
  let tid := length (tasks st) in
  (tid, emit (EvCreateTask tid)
          (set_tasks (tasks st ++ [Running (PcCreated delay_consumption)]) st)).

(** The property [consuming_messages].  [Task.exception()] returns the
    exception of a failed task, [None] for one that returned, and raises
    [CancelledError] for a cancelled one. *)
Definition consuming_messages (st : State) : State * outcome bool :=
  match consume_task st with
  | None => (st, Ok false)
  | Some tid =>
      match task_of st tid with
      | Running _ => (st, Ok true)
      | Finished => (st, Ok false)
      | Failed e => (emit (EvLogTaskFailed e) st, Ok false)
      | Cancelled => (st, Raise CancelledError)
      end
  end.

(** [msg.author.id in self.watched_users] *)
Definition watched (m : Msg) (st : State) : bool :=
  bool_decide (is_Some (watched_users st !! JInt (author_id m))).

(** [on_message].  The handler has no [await]: it runs to its end before
    the task it may have created is entered. *)
Definition on_message (m : Msg) (st : State) : State * outcome unit :=
  if watched m st then
    match consuming_messages st with
    | (st1, Raise e) => (st1, Raise e)
    | (st1, Ok b) =>
        let st2 :=
          if b then st1
          else let '(tid, st') := create_task true st1 in
               set_consume_task (Some tid) st' in
        (set_message_queue (queue_append m (message_queue st2)) st2, Ok tt)
    end
  else (st, Ok tt).

(** API answer awaited by [fetch_user_cache]. *)
Inductive api_result : Type :=
  | ApiData (data : list Entry)
  | ApiRaised (e : exn).

(** [for entry in data: user_id = entry.pop('user');
     self.watched_users[user_id] = entry] *)
Fixpoint fill_cache (data : list Entry) (st : State) : State * outcome bool :=
  match data with
  | [] => (st, Ok true)
  | entry :: data' =>
      match entry !! "user" with
      | None => (st, Raise KeyError)
      | Some user_id =>
          fill_cache data'
            (set_watched_users
               (<[user_id := delete "user" entry]> (watched_users st)) st)
      end
  end.

(** [fetch_user_cache], given what [api_client.get] produced. *)
Definition fetch_user_cache (r : api_result) (st : State)
  : State * outcome bool :=
  let st0 := emit EvApiGet st in
  match r with
  | ApiRaised e =>
      if decide (e = ClientResponseError)
      then (emit (EvLogFetchFailed e) st0, Ok false)
      else (st0, Raise e)
  | ApiData data => fill_cache data (set_watched_users ∅ st0)
  end.

(** [_remove_user] *)
Definition _remove_user (user_id : Z) (st : State) : State :=
  set_consumption_queue (OD.pop user_id (consumption_queue st))
    (set_message_queue (OD.pop user_id (message_queue st))
       (set_watched_users (delete (JInt user_id) (watched_users st)) st)).

(** [task.cancel()] followed by the next cycle of the loop: the
    [CancelledError] thrown into the coroutine at its [await] is caught
    nowhere in [consume_messages], so the task ends cancelled and the
    attributes stay as the coroutine left them. *)
Definition cancel (tid : nat) (st : State) : State :=
  match tasks st !! tid with
  | Some (Running _) => set_tasks (<[tid := Cancelled]> (tasks st)) st
  | _ => st
  end.

(** [cog_unload].  [self._consume_task] is [None] until the first task is
    created, and [None.done()] raises [AttributeError].  On a task that is
    still running, [result()] is called before the loop has delivered the
    cancellation and raises [InvalidStateError]. *)
Definition cog_unload (st : State) : State * outcome unit :=
  match consume_task st with
  | None => (st, Raise AttributeError)
  | Some tid =>
      if done (task_of st tid) then (st, Ok tt)
      else (cancel tid st, Raise InvalidStateError)
  end.

Section Relay.
(** [BigBrotherConfig.log_delay] and
    [BigBrotherConfig.header_message_limit], from [bot.constants]. *)
Variable log_delay : Z.
Variable header_message_limit : Z.

(** [msg.author.id != last_author or msg.channel.id != last_channel
     or count >= limit] *)
Definition needs_header (m : Msg) (h : MessageHistory) : bool :=
  bool_decide (Some (author_id m) ≠ last_author h)
  || bool_decide (Some (channel_id m) ≠ last_channel h)
  || bool_decide (header_message_limit ≤ message_count h).

(** [self.message_history.message_count += 1], the last statement of
    [relay_message]. *)
Definition relay_count (st : State) : State * step :=
  let h := message_history st in
  (set_message_history
     {| last_author := last_author h; last_channel := last_channel h;
        message_count := message_count h + 1 |} st,
   Complete).

(** [relay_message] from [if msg.attachments:] on. *)
Definition relay_attachments (m : Msg) (st : State) : State * step :=
  match attachments m with
  | [] => relay_count st
  | _ :: _ => (st, Suspend (PcAttach m))
  end.

(** [relay_message] from [if cleaned_content:] on. *)
Definition relay_content (m : Msg) (st : State) : State * step :=
  match clean_content m with
  | EmptyString => relay_attachments m st
  | String _ _ => (st, Suspend (PcBody m))
  end.

(** [send_header] up to its [webhook_send].  [self.watched_users] is a
    [defaultdict(dict)]: indexing a missing user binds it to an empty
    entry, whose fields then raise [KeyError]. *)
Definition send_header (m : Msg) (st : State) : State * step :=
  let user_id := JInt (author_id m) in
  let st1 :=
    match watched_users st !! user_id with
    | Some _ => st
    | None => set_watched_users (<[user_id := ∅]> (watched_users st)) st
    end in
  let entry := default ∅ (watched_users st !! user_id) in
  match entry !! "actor", entry !! "inserted_at", entry !! "reason" with
  | Some _, Some _, Some _ => (st1, Suspend (PcHeader m))
  | _, _, _ => (st1, Throw KeyError)
  end.

(** [relay_message] up to its first [await]. *)
Definition relay_message (m : Msg) (st : State) : State * step :=
  let st0 := emit (EvRelay m) st in
  if needs_header m (message_history st0) then
    send_header m
      (set_message_history
         {| last_author := Some (author_id m);
            last_channel := Some (channel_id m);
            message_count := 0 |} st0)
  else relay_content m st0.

(** [webhook_send] once [self.webhook.send] is over: the payload [ev] was
    delivered, or the [HTTPException] is logged and swallowed. *)
Definition webhook_send (ev : Event) (r : result) (st : State)
  : State * step :=
  match r with
  | Returned => (emit ev st, Complete)
  | Raised e =>
      if is_http e then (emit (EvLogSendFailed e) st, Complete)
      else (st, Throw e)
  end.

(** [relay_message] continued after the [await] it was suspended at. *)
Definition relay_resume (p : pc) (r : result) (st : State) : State * step :=
  match p with
  | PcHeader m => and_then (webhook_send (EvHeader m) r st) (relay_content m)
  | PcBody m => and_then (webhook_send (EvBody m) r st) (relay_attachments m)
  | PcAttach m =>
      match r with
      | Returned => relay_count (emit (EvAttachments m) st)
      | Raised e =>
          if is_forbidden_or_notfound e then (st, Suspend (PcPlaceholder m))
          else if is_http e then relay_count (emit (EvLogAttachFailed e) st)
          else (st, Throw e)
      end
  | PcPlaceholder m =>
      and_then (webhook_send (EvPlaceholder m) r st) relay_count
  | PcCreated _ | PcSleep => (st, Complete)
  end.

(** [consume_messages] after its loops: clear the snapshot and, if
    messages arrived meanwhile, hand over to a new task. *)
Definition finish (st : State) : State * task :=
  let st1 := set_consumption_queue [] st in
  match message_queue st1 with
  | [] => (st1, Finished)
  | _ :: _ =>
      let '(tid, st2) := create_task false st1 in
      (set_consume_task (Some tid) st2, Finished)
  end.

(** The three nested loops of [consume_messages], entered or re-entered
    with [pending] the messages still in the snapshot: pop the next
    message, relay it, and go on if the relay met no [await]. *)
Fixpoint drain (pending : list Msg) (st : State) : State * task :=
  match pending with
  | [] => finish st
  | _ :: pending' =>
      match popleft (consumption_queue st) with
      | None => finish st
      | Some (m, q) =>
          match relay_message m (set_consumption_queue q st) with
          | (st', Complete) => drain pending' st'
          | (st', Suspend p) => (st', Running p)
          | (st', Throw e) => (st', fail e)
          end
      end
  end.

Definition drain_loop (st : State) : State * task :=
  drain (flatten (consumption_queue st)) st.

(** [consume_messages] from [if not self.consumption_queue:] on.
    [copy()] is shallow, but [clear()] empties the outer dictionary of
    [message_queue], so the two share nothing afterwards. *)
Definition begin_drain (st : State) : State * task :=
  let st1 :=
    match consumption_queue st with
    | [] => set_message_queue [] (set_consumption_queue (message_queue st) st)
    | _ :: _ => st
    end in
  drain_loop st1.

(** Run the coroutine of a consume task from the [await] [p] it is
    suspended at, which produced [r], to its next [await] or its end.
    [asyncio.sleep] raises nothing of its own; a cancellation that reaches
    a task in its sleep, or at any other [await], is [cancel]. *)
Definition resume_task (p : pc) (r : result) (st : State) : State * task :=
  match p with
  | PcCreated delay_consumption =>
      if delay_consumption
      then (emit (EvSleep log_delay) st, Running PcSleep)
      else begin_drain st
  | PcSleep => begin_drain st
  | _ =>
      match relay_resume p r st with
      | (st', Complete) => drain_loop st'
      | (st', Suspend p') => (st', Running p')
      | (st', Throw e) => (st', fail e)
      end
  end.

(** The event loop runs task [tid]. *)
Definition resume (tid : nat) (r : result) (st : State) : State :=
  match tasks st !! tid with
  | Some (Running p) =>
      let '(st', t) := resume_task p r st in
      set_tasks (<[tid := t]> (tasks st')) st'
  | _ => st
  end.

(** What happens to the cog, one event at a time.  [_remove_user] is not
    among the events: called while a drain is suspended it would change
    the size of a dictionary that the drain is iterating over. *)
Inductive event : Type :=
  | Arrive (m : Msg)                 (* the bot dispatches [on_message] *)
  | Resume (tid : nat) (r : result)  (* the loop runs a consume task *)
  | CancelTask (tid : nat)           (* a task is cancelled *)
  | Unload                           (* [cog_unload] *)
  | Refresh (r : api_result).        (* [fetch_user_cache] *)

Definition handle (ev : event) (st : State) : State :=
  match ev with
  | Arrive m => fst (on_message m st)
  | Resume tid r => resume tid r st
  | CancelTask tid => cancel tid st
  | Unload => fst (cog_unload st)
  | Refresh r => fst (fetch_user_cache r st)
  end.

Definition run (evs : list event) (st : State) : State :=
  fold_left (fun s ev => handle ev s) evs st.
End Relay.


(** ** Start-up *)

(** What the outside world answers during [start_watchchannel]:
    [bot.get_channel] at each attempt (numbered from 1),
    [bot.get_webhook_info] (a webhook, or one of the exceptions of
    discord.py), and the API behind [fetch_user_cache]. *)
Record StartEnv : Type := {
  get_channel : nat -> option Z;
  get_webhook_info : Z + exn;
  api_get : api_result
}.

(** The [for attempt in range(1, self.retries+1)] loop with its [else]
    clause, entered at [attempt] with [remaining] iterations to go. *)
Fixpoint resolve_channel (env : StartEnv) (remaining : nat) (attempt : nat)
  (st : State) : State :=
  match remaining with
  | O => emit EvLogNoChannel st
  | S remaining' =>
      let st1 :=
        set_channel (get_channel env attempt) (emit (EvGetChannel attempt) st) in
      match channel st1 with
      | Some _ => st1
      | None =>
          let st2 :=
            if decide (attempt < retries st1)%nat
            then emit (EvSleep (retry_delay st1)) st1
            else st1 in
          resolve_channel env remaining' (S attempt) st2
      end
  end.

(** [try: self.webhook = await self.bot.get_webhook_info(...)
     except (discord.HTTPException, discord.NotFound, discord.Forbidden)] *)
Definition resolve_webhook (env : StartEnv) (st : State) : State * outcome unit :=
  let st0 := emit EvGetWebhook st in
  match get_webhook_info env with
  | inl w => (set_webhook (Some w) st0, Ok tt)
  | inr e =>
      if is_http e then (emit (EvLogNoWebhook e) st0, Ok tt)
      else (st0, Raise e)
  end.

(** [start_watchchannel] *)
Definition start_watchchannel (env : StartEnv) (st : State)
  : State * outcome unit :=
  let st1 := resolve_channel env (retries st) 1%nat st in
  match resolve_webhook env st1 with
  | (st2, Raise e) => (st2, Raise e)
  | (st2, Ok _) =>
      match channel st2, webhook st2 with
      | Some _, Some _ =>
          match fetch_user_cache (api_get env) st2 with
          | (st3, Raise e) => (st3, Raise e)
          | (st3, Ok true) => (st3, Ok tt)
          | (st3, Ok false) => (emit EvModLogWarning st3, Ok tt)
          end
      | _, _ =>
          (set_loaded false
             (emit EvRemoveCog (emit EvModLogError (emit EvLogStartFailed st2))),
           Ok tt)
      end
  end.

(** ** Reading the trace *)

(** The messages handed to [relay_message], oldest first. *)
Definition relayed (st : State) : list Msg :=
  omap (fun ev => match ev with EvRelay m => Some m | _ => None end) (trace st).

(** What the webhook delivered, oldest first. *)
Definition is_delivery (ev : Event) : bool :=
  match ev with
  | EvHeader _ | EvBody _ | EvAttachments _ | EvPlaceholder _ => true
  | _ => false
  end.

Definition delivered (st : State) : list Event :=
  List.filter is_delivery (trace st).

(** The messages of one (author, channel) pair among [ms]. *)
Definition in_pair (a c : Z) (m : Msg) : bool :=
  (author_id m =? a) && (channel_id m =? c).

Definition of_pair (a c : Z) (ms : list Msg) : list Msg :=
  List.filter (in_pair a c) ms.

(** The messages that the events of a schedule deliver to [on_message]. *)
Definition arrivals (evs : list event) : list Msg :=
  omap (fun ev => match ev with Arrive m => Some m | _ => None end) evs.

(** ** Assumptions on the environment, and running a drain to its end *)

(** An entry of the cache as [send_header] needs it. *)
Definition entry_ok (e : Entry) : Prop :=
  is_Some (e !! "actor") ∧ is_Some (e !! "inserted_at") ∧ is_Some (e !! "reason").


(** An awaited send returned, or raised what [webhook_send] and
    [relay_message] catch. *)
Definition benign (r : result) : bool :=
  match r with
  | Returned => true
  | Raised e => is_http e
  end.


(** The cog right after a start-up that loaded the cache [wu]. *)
Definition started (wu : gmap JValue Entry) : State :=
  set_watched_users wu init.

Section Settle.
Variable log_delay : Z.
Variable header_message_limit : Z.

(** The loop keeps running the task that [self._consume_task] refers to,
    its awaits producing [rs] in turn. *)
Fixpoint settle (rs : list result) (st : State) : State :=
  match rs with
  | [] => st
  | r :: rs' =>
      settle rs'
        (match consume_task st with
         | Some tid => resume log_delay header_message_limit tid r st
         | None => st
         end)
  end.
End Settle.


(** How many awaits a task suspended at [p] may still need before it
    takes the next message or ends. *)
Definition rank (t : task) : nat :=
  match t with
  | Running (PcCreated true) => 7
  | Running PcSleep => 6
  | Running (PcHeader _) => 5
  | Running (PcBody _) => 4
  | Running (PcAttach _) => 3
  | Running (PcPlaceholder _) => 2
  | Running (PcCreated false) => 1
  | _ => 0
  end.


(** ** Predicates and examples used in the statements *)

(** Four messages of user 5 in channel 10. *)
Definition A1 : Msg :=
  {| msg_id := 1; author_id := 5; channel_id := 10;
     clean_content := "one"; attachments := [] |}.
Definition A2 : Msg :=
  {| msg_id := 2; author_id := 5; channel_id := 10;
     clean_content := "two"; attachments := [] |}.
Definition A3 : Msg :=
  {| msg_id := 3; author_id := 5; channel_id := 10;
     clean_content := "three"; attachments := [] |}.

(** A cache that watches user 5. *)
Definition watch5 : gmap JValue Entry :=
  {[ JInt 5 := {[ "actor" := JInt 77; "reason" := JStr "spam";
                  "inserted_at" := JStr "2019-09-01T10:00:00.000000Z" ]} ]}.



(** Everything but the destination, the webhook and the trace is as it was. *)
Definition untouched (st st' : State) : Prop :=
  consume_task st' = consume_task st ∧ tasks st' = tasks st ∧
  watched_users st' = watched_users st ∧
  message_queue st' = message_queue st ∧
  consumption_queue st' = consumption_queue st ∧
  message_history st' = message_history st ∧
  retries st' = retries st ∧ retry_delay st' = retry_delay st ∧
  loaded st' = loaded st ∧ webhook st' = webhook st.

(** The first [k] attempts at the destination channel, a sleep of [delay]
    seconds after each but the last. *)
Definition attempts (delay : Z) (first k : nat) : list Event :=
  flat_map (fun i => [EvGetChannel i; EvSleep delay]) (seq first (k - 1))
  ++ [EvGetChannel (first + k - 1)].

(** What a piece of [relay_message] cannot touch. *)
Definition relay_frame (st st' : State) : Prop :=
  consume_task st' = consume_task st ∧ tasks st' = tasks st ∧
  message_queue st' = message_queue st ∧
  consumption_queue st' = consumption_queue st ∧
  ∃ more, trace st' = trace st ++ more ∧
          ∀ tid, EvCreateTask tid ∉ more.

(** The awaits inside [relay_message]. *)
Definition in_relay (p : pc) : bool :=
  match p with
  | PcHeader _ | PcBody _ | PcAttach _ | PcPlaceholder _ => true
  | _ => false
  end.

(** The cache has what [send_header] needs for the author of [m]. *)
Definition header_ready (wu : gmap JValue Entry) (m : Msg) : Prop :=
  ∃ e, wu !! JInt (author_id m) = Some e ∧ entry_ok e.

(** What a run of the drain loop leaves behind: the live queue is not
    touched, and either the task ended and, the live queue not being
    empty, handed over to a new task, or no task was created. *)
Definition handed_over (st st' : State) : Prop :=
  message_queue st ≠ [] ∧
  tasks st' = tasks st ++ [Running (PcCreated false)] ∧
  consume_task st' = Some (length (tasks st)).

Definition same_tasks (st st' : State) : Prop :=
  tasks st' = tasks st ∧ consume_task st' = consume_task st.

(** The part of [effort] that does not depend on the task. *)
Definition load (st : State) : nat :=
  8 * (length (flatten (consumption_queue st))
       + length (flatten (message_queue st)))
  + match consumption_queue st with [] => 0 | _ :: _ => 1 end.

(** A step that started at an [await] of rank [k] suspended again, or
    ended the task with nothing left, or ended it and handed over to a new
    task, or failed; it can fail only if the environment is not [ok]. *)
Inductive ending (k : nat) (ok : Prop) (st st' : State) (t : task) : Prop :=
  | ends_suspended p' :
      t = Running p' → same_tasks st st' →
      (load st' + rank t < load st + k)%nat →
      ending k ok st st' t
  | ends_finished :
      t = Finished → same_tasks st st' →
      consumption_queue st' = [] → message_queue st' = [] →
      ending k ok st st' t
  | ends_handed_over :
      t = Finished → consumption_queue st' = [] →
      tasks st' = tasks st ++ [Running (PcCreated false)] →
      consume_task st' = Some (length (tasks st)) →
      (load st' + 1 < load st + k)%nat →
      ending k ok st st' t
  | ends_failed e :
      t = fail e → same_tasks st st' → ¬ ok →
      ending k ok st st' t.

(** Every queued message has its author in the cache, with the fields
    that the header needs. *)
Definition headers_ready (st : State) : Prop :=
  Forall (header_ready (watched_users st))
    (flatten (consumption_queue st) ++ flatten (message_queue st)).

(** Between [st] and [st'] the messages at the front of [src] were handed
    to [relay_message], in order; [src'] is what is left of [src]. *)
Definition relayed_from (src src' : list Msg) (st st' : State) : Prop :=
  ∃ sent, relayed st' = relayed st ++ sent ∧ src = sent ++ src'.

Definition pending (st : State) : list Msg :=
  flatten (consumption_queue st) ++ flatten (message_queue st).

(** The deques of one user: channel ids are not repeated, and a deque
    holds messages of that user in that channel only. *)
Definition chans_wf (u : Z) (chs : ChannelQueues) : Prop :=
  NoDup (OD.keys chs) ∧
  Forall (fun cd => Forall (fun m => author_id m = u ∧ channel_id m = fst cd)
                      (snd cd)) chs.

Definition wf_queues (q : Queues) : Prop :=
  NoDup (OD.keys q) ∧ Forall (fun uc => chans_wf (fst uc) (snd uc)) q.

(** A task that is still running is the one [self._consume_task] refers
    to, and that handle is a task that was created. *)
Definition single_flight (st : State) : Prop :=
  (∀ tid p, tasks st !! tid = Some (Running p) → consume_task st = Some tid) ∧
  (∀ tid, consume_task st = Some tid → (tid < length (tasks st))%nat).





(** The next run is started: what [on_message] does when
    [consuming_messages] answered [False]. *)
Definition restart (st : State) : State :=
  let '(tid, st') := create_task true st in
  set_consume_task (Some tid) st'.

(** A message with an attachment. *)
Definition B1 : Msg :=
  {| msg_id := 11; author_id := 5; channel_id := 10;
     clean_content := "see this"; attachments := [7] |}.

(** [B1] then [A2] arrive; the consume task sleeps, takes the snapshot,
    sends the header and the body of [B1], and is cancelled while the
    attachment of [B1] is being sent: [A2] is still in the snapshot. *)
Definition interrupted : State :=
  run 2 3
    [Arrive B1; Arrive A2; Resume 0 Returned; Resume 0 Returned;
     Resume 0 Returned; Resume 0 Returned; CancelTask 0]
    (started watch5).

(** ** Definitions for the further properties *)

Section Intake.
Variable log_delay : Z.
Variable header_message_limit : Z.

(** [on_message] takes the message in: its author is in the cache and
    the handler returns. *)
Definition takes_in (m : Msg) (st : State) : bool :=
  watched m st &&
  match snd (on_message m st) with
  | Ok _ => true
  | Raise _ => false
  end.

(** The messages taken in by [on_message] in the course of a schedule. *)
Fixpoint taken_in (evs : list event) (st : State) : list Msg :=
  match evs with
  | [] => []
  | ev :: evs' =>
      match ev with
      | Arrive m => if takes_in m st then [m] else []
      | _ => []
      end ++ taken_in evs' (handle log_delay header_message_limit ev st)
  end.
End Intake.

(** The handle refers to a task that was cancelled. *)
Definition stuck (st : State) : Prop :=
  ∃ tid, consume_task st = Some tid ∧ task_of st tid = Cancelled.

(** Every task there is was created through the handle. *)
Definition handle_tracks_tasks (st : State) : Prop :=
  consume_task st = None → tasks st = [].

(** [self.message_history.message_count] *)
Definition count (st : State) : Z := message_count (message_history st).

(** The count is within the limit, and strictly under it while a relay
    is suspended at one of its sends. *)
Definition count_ok (limit : Z) (st : State) : Prop :=
  single_flight st ∧ 0 ≤ count st ≤ Z.max limit 1 ∧
  ∀ tid p, tasks st !! tid = Some (Running p) → in_relay p = true →
           count st < Z.max limit 1.


(** An entry of the API that has its ['user'] field. *)
Definition has_user (entry : Entry) : Prop := is_Some (entry !! "user").

(** Two watches of user 5 as the API lists them, and an entry without user. *)
Definition watch_a : Entry :=
  {[ "user" := JInt 5; "actor" := JInt 77; "reason" := JStr "spam";
     "inserted_at" := JStr "2019-09-01T10:00:00.000000Z" ]}.
Definition watch_b : Entry :=
  {[ "user" := JInt 5; "actor" := JInt 78; "reason" := JStr "again";
     "inserted_at" := JStr "2019-10-01T10:00:00.000000Z" ]}.
Definition no_user : Entry := {[ "actor" := JInt 77 ]}.

(** [A1] arrives, the cache is refreshed and no longer lists its author,
    then the consume task runs. *)
Definition dropped_from_cache : State :=
  run 2 3 [Arrive A1; Refresh (ApiData []); Resume 0 Returned; Resume 0 Returned]
    (started watch5).

(** Neither a message to the mod log nor the removal of the cog. *)
Definition unreported (ev : Event) : Prop :=
  ev ≠ EvModLogError ∧ ev ≠ EvModLogWarning ∧ ev ≠ EvRemoveCog.

(** The elements of [l], each once, in the order of their first
    occurrence: the order in which a dictionary gets its keys. *)
Definition first_seen (l : list Z) : list Z :=
  fold_left (fun acc x => if decide (x ∈ acc) then acc else acc ++ [x]) l [].

(** The channels in which user [u] wrote, by first message. *)
Definition channels_of (u : Z) (ms : list Msg) : list Z :=
  first_seen (map channel_id (List.filter (fun m => author_id m =? u) ms)).


Definition grouped (ms : list Msg) : list Msg :=
  flat_map (fun u => flat_map (fun c => of_pair u c ms) (channels_of u ms))
    (first_seen (map author_id ms)).

(** A message of user 6 in channel 10. *)
Definition D1 : Msg :=
  {| msg_id := 21; author_id := 6; channel_id := 10;
     clean_content := "hello"; attachments := [] |}.


(** Both queues are keyed as [on_message] builds them. *)
Definition queues_wf (st : State) : Prop :=
  wf_queues (message_queue st) ∧ wf_queues (consumption_queue st).

(** The messages of [ms] that user [u] did not write. *)
Definition not_by (u : Z) (ms : list Msg) : list Msg :=
  List.filter (fun m => negb (author_id m =? u)) ms.

(** ** Listing the watched users *)

(** A line of the overview built by [list_watched_users]. *)
Inductive line : Type :=
  | LineUser (user_id : JValue) (time_delta : string)
      (* "• <@{user_id}> (added {time_delta})" *)
  | LineNothing.
      (* "There's nothing here yet." *)

(** What is handed to [LinePaginator.paginate]: the lines, and whether the
    title of the embed says 'updated' rather than 'cached'. *)
Record Listing : Type := {
  listing_updated : bool;
  listing_lines : list line
}.

(** The users that the lines of a listing are about. *)
Definition line_users (ls : list line) : list JValue :=
  omap (fun l => match l with LineUser u _ => Some u | LineNothing => None end) ls.

Section Listing.
(** [_get_time_delta]: what [strptime] and [time_since] make of the
    ['inserted_at'] field of an entry, or the exception they raise. *)
Variable _get_time_delta : JValue → string + exn.

(** [for user_id, user_data in self.watched_users.items(): ...
     lines.append(...)] *)
Fixpoint watched_lines (items : list (JValue * Entry)) : outcome (list line) :=
  match items with
  | [] => Ok []
  | (user_id, user_data) :: items' =>
      match user_data !! "inserted_at" with
      | None => Raise KeyError
      | Some inserted_at =>
          match _get_time_delta inserted_at with
          | inr e => Raise e
          | inl time_delta =>
              match watched_lines items' with
              | Ok lines => Ok (LineUser user_id time_delta :: lines)
              | Raise e => Raise e
              end
          end
      end
  end.

(** [list_watched_users] from [lines = []] on.  The finite map of the
    cache does not keep the order of insertion: the lines come in the
    order of [map_to_list]. *)
Definition build_listing (update_cache : bool) (st : State) : outcome Listing :=
  match watched_lines (map_to_list (watched_users st)) with
  | Raise e => Raise e
  | Ok lines =>
      Ok {| listing_updated := update_cache;
            listing_lines :=
              match lines with
              | [] => [LineNothing]
              | _ :: _ => lines
              end |}
  end.

(** [list_watched_users], given what the API answers if it is asked.  The
    result is the cog, whether the notice ":x: Failed to update ... user
    cache, serving from cache" was sent, and the listing handed to the
    paginator. *)
Definition list_watched_users (update_cache : bool) (r : api_result)
  (st : State) : State * bool * outcome Listing :=
  if update_cache then
    match fetch_user_cache r st with
    | (st1, Raise e) => (st1, false, Raise e)
    | (st1, Ok true) => (st1, false, build_listing true st1)
    | (st1, Ok false) => (st1, true, build_listing false st1)
    end
  else (st, false, build_listing false st).
End Listing.

(** A clock that reads every timestamp as "1 hour". *)
Definition an_hour (v : JValue) : string + exn :=
  match v with
  | JStr _ => inl "1 hour"
  | _ => inr OtherError
  end.

(** ** Further states, and readings of the trace *)

(** The task that failed on [A1] left a snapshot with keys and no
    message; [A2] has arrived and the next task is in its sleep. *)
Definition emptied_snapshot : State :=
  run 2 3 [Arrive A2; Resume 1 Returned] dropped_from_cache.



(** The exceptions of the tasks that failed, in the order of creation. *)
Definition failures (ts : list task) : list exn :=
  omap (fun t => match t with Failed e => Some e | _ => None end) ts.

(** The exceptions logged by [consuming_messages], oldest first. *)
Definition logged_failures (st : State) : list exn :=
  omap (fun ev => match ev with EvLogTaskFailed e => Some e | _ => None end)
    (trace st).

(** [self._consume_task] is the task created last. *)
Definition newest_in_charge (st : State) : Prop :=
  match tasks st with
  | [] => consume_task st = None
  | _ :: _ => consume_task st = Some (length (tasks st) - 1)%nat
  end.

(** Every failure but that of the newest task has been logged. *)
Definition failures_logged (st : State) : Prop :=
  newest_in_charge st ∧ single_flight st ∧
  logged_failures st
  = failures (take (length (tasks st) - 1) (tasks st)).

(** ** Dictionaries and queues *)

Lemma OD_get_pop_eq {V} (k : Z) (d : list (Z * V)) : OD.get k (OD.pop k d) = None.
Proof.
  induction d as [|[k' v] d IH]; simpl; [done|].
  destruct (decide (k' = k)); simpl; [done|].
  by rewrite decide_False.
Qed.

Lemma OD_get_pop_ne {V} (k j : Z) (d : list (Z * V)) :
  j ≠ k → OD.get j (OD.pop k d) = OD.get j d.
Proof.
  intros Hne. induction d as [|[k' v] d IH]; simpl; [done|].
  destruct (decide (k' = k)) as [->|]; simpl.
  - by rewrite decide_False.
  - by rewrite IH.
Qed.

Lemma OD_pop_filter {V} (k : Z) (d : list (Z * V)) :
  OD.pop k d = List.filter (fun p => negb (fst p =? k)) d.
Proof.
  induction d as [|[k' v] d IH]; simpl; [done|].
  destruct (decide (k' = k)) as [->|Hne].
  - by rewrite Z.eqb_refl.
  - apply Z.eqb_neq in Hne. rewrite Hne. simpl. by rewrite IH.
Qed.

Lemma chans_popleft_flatten chs m chs' :
  chans_popleft chs = Some (m, chs') →
  chans_flatten chs = m :: chans_flatten chs'.
Proof.
  revert m chs'. induction chs as [|[c dq] chs IH]; simpl; intros m chs'.
  - intros [=].
  - unfold chans_flatten in *. destruct dq as [|m0 dq]; simpl.
    + destruct (chans_popleft chs) as [[m' chs'']|]; [|done].
      intros [= <- <-]. simpl. by apply IH.
    + by intros [= <- <-].
Qed.

Lemma chans_popleft_None chs :
  chans_popleft chs = None ↔ chans_flatten chs = [].
Proof.
  induction chs as [|[c dq] chs IH]; simpl; [done|].
  unfold chans_flatten in *. simpl.
  destruct dq as [|m dq]; simpl.
  - destruct (chans_popleft chs) as [[m' chs'']|].
    + split; [done|]. intros H. apply IH in H. done.
    + split; [|done]. intros _. by apply IH.
  - done.
Qed.

Lemma popleft_Some q m q' :
  popleft q = Some (m, q') → flatten q = m :: flatten q'.
Proof.
  revert m q'. induction q as [|[u chs] q IH]; simpl; intros m q'; [done|].
  unfold flatten in *. simpl.
  destruct (chans_popleft chs) as [[m' chs']|] eqn:Hc.
  - intros [= <- <-]. simpl.
    apply chans_popleft_flatten in Hc. by rewrite Hc.
  - apply chans_popleft_None in Hc. rewrite Hc. simpl.
    destruct (popleft q) as [[m' q'']|]; [|done].
    intros [= <- <-]. simpl. rewrite Hc. simpl. by apply IH.
Qed.

Lemma popleft_None q : popleft q = None ↔ flatten q = [].
Proof.
  induction q as [|[u chs] q IH]; simpl; [done|].
  unfold flatten in *. simpl.
  destruct (chans_popleft chs) as [[m' chs']|] eqn:Hc.
  - apply chans_popleft_flatten in Hc. rewrite Hc. done.
  - apply chans_popleft_None in Hc. rewrite Hc. simpl.
    destruct (popleft q) as [[m' q'']|].
    + split; [done|]. intros H. by apply IH in H.
    + split; [|done]. intros _. by apply IH.
Qed.

(** ** The user cache *)

Lemma fill_cache_frame data st :
  ∀ st' out, fill_cache data st = (st', out) →
    consume_task st' = consume_task st ∧ tasks st' = tasks st ∧
    message_queue st' = message_queue st ∧
    consumption_queue st' = consumption_queue st ∧
    message_history st' = message_history st ∧
    loaded st' = loaded st ∧ trace st' = trace st ∧
    channel st' = channel st ∧ webhook st' = webhook st.
Proof.
  revert st. induction data as [|entry data IH]; simpl; intros st st' out.
  - by intros [= <- <-].
  - destruct (entry !! "user") as [uid|]; [|by intros [= <- <-]].
    intros H. apply IH in H. simpl in H. done.
Qed.




(** C9: [_remove_user] leaves no entry of the user in the cache, the live
    queue or the snapshot; the entries of every other user are the same
    and in the same order; nothing is fetched, and what was relayed
    (the trace), the tasks and the header tracker are untouched. *)
Theorem remove_user_evicts_only_that_user (user_id : Z) (st : State) :
  let st' := _remove_user user_id st in
  watched_users st' !! JInt user_id = None ∧
  OD.get user_id (message_queue st') = None ∧
  OD.get user_id (consumption_queue st') = None ∧
  (∀ k, k ≠ JInt user_id → watched_users st' !! k = watched_users st !! k) ∧
  (∀ u, u ≠ user_id →
     OD.get u (message_queue st') = OD.get u (message_queue st) ∧
     OD.get u (consumption_queue st') = OD.get u (consumption_queue st)) ∧
  message_queue st' =
    List.filter (fun p => negb (fst p =? user_id)) (message_queue st) ∧
  consumption_queue st' =
    List.filter (fun p => negb (fst p =? user_id)) (consumption_queue st) ∧
  trace st' = trace st ∧ tasks st' = tasks st ∧
  consume_task st' = consume_task st ∧
  message_history st' = message_history st.
Proof.
  simpl. split_and!; try done.
  - apply lookup_delete_eq.
  - apply OD_get_pop_eq.
  - apply OD_get_pop_eq.
  - intros k Hk. by apply lookup_delete_ne.
  - intros u Hu. split; by apply OD_get_pop_ne.
  - apply OD_pop_filter.
  - apply OD_pop_filter.
Qed.

(** ** Headers and the message count *)






(** ** Unloading *)

Lemma cog_unload_without_task (st : State) :
  consume_task st = None → cog_unload st = (st, Raise AttributeError).
Proof. intros H. unfold cog_unload. by rewrite H. Qed.

(** ** Start-up: what it does, case by case *)

Lemma attempts_cons delay first k :
  (1 ≤ k)%nat →
  attempts delay first (S k) =
  [EvGetChannel first; EvSleep delay] ++ attempts delay (S first) k.
Proof.
  intros Hk. unfold attempts.
  replace (S k - 1)%nat with (S (k - 1)) by lia.
  replace (first + S k - 1)%nat with (S first + k - 1)%nat by lia.
  reflexivity.
Qed.

Lemma attempts_only delay first k ev :
  ev ∈ attempts delay first k →
  (∃ i, ev = EvGetChannel i) ∨ ev = EvSleep delay.
Proof.
  unfold attempts. rewrite elem_of_app, !list_elem_of_In, in_flat_map.
  intros [(i & _ & Hi)|Hi]; simpl in Hi.
  - destruct Hi as [<-|[<-|[]]]; eauto.
  - destruct Hi as [<-|[]]; eauto.
Qed.

Lemma resolve_channel_spec env n : ∀ first st,
  (1 ≤ n)%nat → retries st = (first + n - 1)%nat →
  let st' := resolve_channel env n first st in
  untouched st st' ∧
  ∃ k, (1 ≤ k ≤ n)%nat ∧
    (∀ i, (first ≤ i < first + k - 1)%nat → get_channel env i = None) ∧
    channel st' = get_channel env (first + k - 1)%nat ∧
    (channel st' = None → k = n) ∧
    trace st' = trace st ++ attempts (retry_delay st) first k
                ++ (if channel st' is Some _ then [] else [EvLogNoChannel]).
Proof.
  induction n as [|n IH]; intros first st Hn Hret; [lia|].
  simpl. destruct (get_channel env first) as [c|] eqn:Hc.
  - split; [by unfold untouched|]. exists 1%nat. simpl.
    replace (first + 1 - 1)%nat with first by lia. rewrite Hc.
    split_and!; [lia|lia|intros; lia|done|done|].
    unfold attempts. simpl. by replace (first + 1 - 1)%nat with first by lia.
  - destruct n as [|n].
    + rewrite decide_False by lia. simpl.
      split; [by unfold untouched|]. exists 1%nat. simpl.
      replace (first + 1 - 1)%nat with first by lia. rewrite Hc.
      split_and!; [lia|lia|intros; lia|done|done|].
      unfold attempts. simpl. replace (first + 1 - 1)%nat with first by lia.
      by rewrite <- app_assoc.
    + rewrite decide_True by lia.
      match goal with
      | |- context [resolve_channel env (S n) (S first) ?s] =>
          destruct (IH (S first) s) as (Hun & k & Hk & Hnone & Hch & Hlast & Htr);
            [lia|simpl; lia|]
      end.
      split.
      { unfold untouched in *. simpl in Hun. done. }
      exists (S k).
      replace (first + S k - 1)%nat with (S first + k - 1)%nat by lia.
      split_and!; [lia|lia| |done|intros H; apply Hlast in H; lia|].
      * intros i Hi. destruct (decide (i = first)) as [->|]; [done|].
        apply Hnone. lia.
      * rewrite Htr. simpl. rewrite attempts_cons by lia.
        rewrite <- !app_assoc. done.
Qed.

Lemma fetch_user_cache_frame r st st' out :
  fetch_user_cache r st = (st', out) →
  channel st' = channel st ∧ webhook st' = webhook st ∧
  loaded st' = loaded st ∧
  ∃ logged, trace st' = trace st ++ EvApiGet :: logged ∧
    ((logged = [] ∧ out ≠ Ok false) ∨
     (logged = [EvLogFetchFailed ClientResponseError] ∧ out = Ok false ∧
      r = ApiRaised ClientResponseError ∧
      watched_users st' = watched_users st)).
Proof.
  unfold fetch_user_cache. destruct r as [data|e].
  - intros Hf. assert (out ≠ Ok false) as Hout.
    { clear -Hf. revert Hf. generalize (set_watched_users ∅ (emit EvApiGet st)).
      induction data as [|entry data IH]; simpl; intros s.
      - by intros [= <- <-].
      - destruct (entry !! "user"); [apply IH|by intros [= <- <-]]. }
    apply fill_cache_frame in Hf. simpl in Hf.
    destruct Hf as (_ & _ & _ & _ & _ & Hl & Ht & Hc & Hw).
    split_and!; [done..|]. exists []. split; [done|by left].
  - destruct (decide (e = ClientResponseError)) as [->|Hne].
    + intros [= <- <-]. simpl. split_and!; [done..|].
      exists [EvLogFetchFailed ClientResponseError].
      split; [by rewrite <- app_assoc|by right].
    + intros [= <- <-]. simpl. split_and!; [done..|].
      exists []. split; [done|by left].
Qed.


(** ** One step of a consume task *)

Lemma relayed_emit ev st :
  relayed (emit ev st) =
  relayed st ++ match ev with EvRelay m => [m] | _ => [] end.
Proof.
  unfold relayed. simpl. rewrite omap_app. simpl. by destruct ev.
Qed.

Lemma relay_frame_refl st : relay_frame st st.
Proof.
  unfold relay_frame. split_and!; try done. exists []. rewrite app_nil_r.
  split; [done|]. intros tid. apply not_elem_of_nil.
Qed.

Lemma relay_frame_emit ev st st' :
  (∀ tid, ev ≠ EvCreateTask tid) →
  relay_frame (emit ev st) st' → relay_frame st st'.
Proof.
  unfold relay_frame. simpl.
  intros Hev (? & ? & ? & ? & more & Ht & Hm). split_and!; try done.
  exists (ev :: more). rewrite Ht, <- app_assoc. split; [done|].
  intros tid [Heq|Hin]%elem_of_cons; [by eapply Hev|by eapply Hm].
Qed.

Lemma relay_content_spec m st st' s :
  relay_content m st = (st', s) →
  relay_frame st st' ∧ watched_users st' = watched_users st ∧
  relayed st' = relayed st ∧
  (s = Complete ∨ s = Suspend (PcBody m) ∨ s = Suspend (PcAttach m)).
Proof.
  unfold relay_content, relay_attachments, relay_count.
  destruct (clean_content m), (attachments m); intros [= <- <-];
    (split_and!; [apply relay_frame_refl || (unfold relay_frame; simpl;
       split_and!; try done; exists []; rewrite app_nil_r; split; [done|];
       intros ?; apply not_elem_of_nil) | done | done | tauto]).
Qed.

Lemma relay_message_spec limit m st st' s :
  relay_message limit m st = (st', s) →
  relay_frame st st' ∧ relayed st' = relayed st ++ [m] ∧
  (s = Complete ∨ s = Throw KeyError ∨ s = Suspend (PcHeader m) ∨
   s = Suspend (PcBody m) ∨ s = Suspend (PcAttach m)) ∧
  ((∃ e, watched_users st !! JInt (author_id m) = Some e ∧ entry_ok e) →
   watched_users st' = watched_users st ∧ s ≠ Throw KeyError).
Proof.
  unfold relay_message.
  destruct (needs_header limit m (message_history (emit (EvRelay m) st))).
  - unfold send_header. simpl.
    destruct (watched_users st !! JInt (author_id m)) as [e|] eqn:He; simpl.
    + destruct (e !! "actor") as [a|] eqn:Ha,
        (e !! "inserted_at") as [i|] eqn:Hi,
        (e !! "reason") as [r|] eqn:Hr; intros [= <- <-];
      (split_and!;
       [ apply (relay_frame_emit (EvRelay m)); [done|];
         unfold relay_frame; simpl; split_and!; try done; exists [];
         rewrite app_nil_r; split; [done|]; intros ?; apply not_elem_of_nil
       | unfold relayed; simpl; by rewrite omap_app
       | tauto
       | intros (e' & [= <-] & [? ?] & [? ?] & [? ?]);
         first [congruence | by split] ]).
    + rewrite lookup_empty. simpl. intros [= <- <-].
      split_and!.
      * apply (relay_frame_emit (EvRelay m)); [done|].
        unfold relay_frame; simpl; split_and!; try done; exists [].
        rewrite app_nil_r; split; [done|]; intros ?; apply not_elem_of_nil.
      * unfold relayed; simpl; by rewrite omap_app.
      * tauto.
      * by intros (? & [=] & _).
  - intros H. apply relay_content_spec in H as (Hf & Hw & Hr & Hs). simpl in *.
    split_and!.
    + by apply (relay_frame_emit (EvRelay m)).
    + by rewrite Hr, relayed_emit.
    + tauto.
    + intros _. split; [done|]. intros ->. by destruct Hs as [|[|]].
Qed.

Lemma relay_resume_spec p r st st' s :
  relay_resume p r st = (st', s) →
  relay_frame st st' ∧ watched_users st' = watched_users st ∧
  relayed st' = relayed st ∧
  (benign r = true → ∀ e, s ≠ Throw e) ∧
  (in_relay p = true → ∀ p', s = Suspend p' →
     in_relay p' = true ∧ (rank (Running p') < rank (Running p))%nat).
Proof.
  assert (Hws : ∀ ev st0 st1 s1, (∀ tid, ev ≠ EvCreateTask tid) →
            (∀ m', ev ≠ EvRelay m') →
            webhook_send ev r st0 = (st1, s1) →
            relay_frame st0 st1 ∧ watched_users st1 = watched_users st0 ∧
            relayed st1 = relayed st0 ∧
            (benign r = true → s1 = Complete) ∧
            (s1 = Complete ∨ ∃ e, s1 = Throw e)).
  { intros ev st0 st1 s1 Hev Hev'. unfold webhook_send.
    destruct r as [|e]; [|destruct (is_http e) eqn:He]; intros [= <- <-];
      (split_and!; [ | done | rewrite ?relayed_emit | | eauto ]).
    - apply (relay_frame_emit ev); [done|]. apply relay_frame_refl.
    - destruct ev; try by rewrite app_nil_r. by edestruct Hev'.
    - done.
    - apply (relay_frame_emit (EvLogSendFailed e)); [done|].
      apply relay_frame_refl.
    - by rewrite app_nil_r.
    - done.
    - apply relay_frame_refl.
    - done.
    - simpl. by rewrite He. }
  assert (Htrans : ∀ a b c, relay_frame a b → relay_frame b c → relay_frame a c).
  { unfold relay_frame. intros a b c (?&?&?&?&m1&Hm1&Hn1) (?&?&?&?&m2&Hm2&Hn2).
    split_and!; try congruence. exists (m1 ++ m2).
    rewrite Hm2, Hm1, <- app_assoc. split; [done|].
    intros tid [Hin|Hin]%elem_of_app; [by eapply Hn1|by eapply Hn2]. }
  assert (Hcount : ∀ st0 st1 s1, relay_count st0 = (st1, s1) →
            relay_frame st0 st1 ∧ watched_users st1 = watched_users st0 ∧
            relayed st1 = relayed st0 ∧ s1 = Complete).
  { unfold relay_count. intros st0 st1 s1 [= <- <-].
    split_and!; try done. unfold relay_frame. simpl. split_and!; try done.
    exists []. rewrite app_nil_r. split; [done|].
    intros ?; apply not_elem_of_nil. }
  destruct p as [d| |m|m|m|m]; simpl.
  - intros [= <- <-]. split_and!; try done. apply relay_frame_refl.
  - intros [= <- <-]. split_and!; try done. apply relay_frame_refl.
  - destruct (webhook_send (EvHeader m) r st) as [st1 s1] eqn:Hw.
    apply Hws in Hw as (Hf & Hwu & Hr & Hb & Hs); [|done..].
    destruct Hs as [->|[e ->]]; simpl.
    + intros H. apply relay_content_spec in H as (Hf2 & Hwu2 & Hr2 & Hs2).
      split_and!; [by eapply Htrans|congruence|congruence| |].
      * intros _ e ->. by destruct Hs2 as [|[|]].
      * intros _ p' ->. destruct Hs2 as [|[[= ->]|[= ->]]]; [done|..];
          simpl; split; [done|lia|done|lia].
    + intros [= <- <-]. split_and!; try done.
      intros Hbr. by specialize (Hb Hbr).
  - destruct (webhook_send (EvBody m) r st) as [st1 s1] eqn:Hw.
    apply Hws in Hw as (Hf & Hwu & Hr & Hb & Hs); [|done..].
    destruct Hs as [->|[e ->]]; simpl.
    + unfold relay_attachments. destruct (attachments m).
      * intros H. apply Hcount in H as (Hf2 & Hwu2 & Hr2 & ->).
        split_and!; [by eapply Htrans|congruence|congruence|done|done].
      * intros [= <- <-]. split_and!; try done.
        intros _ p' [= <-]. simpl. split; [done|lia].
    + intros [= <- <-]. split_and!; try done.
      intros Hbr. by specialize (Hb Hbr).
  - destruct r as [|e].
    + intros H. apply Hcount in H as (Hf2 & Hwu2 & Hr2 & ->).
      split_and!; [|done|by rewrite Hr2, relayed_emit, app_nil_r|done|done].
      by apply (relay_frame_emit (EvAttachments m)).
    + destruct (is_forbidden_or_notfound e) eqn:Hfn.
      * intros [= <- <-]. split_and!; try done; [apply relay_frame_refl|].
        intros _ p' [= <-]. simpl. split; [done|lia].
      * destruct (is_http e) eqn:He.
        -- intros H. apply Hcount in H as (Hf2 & Hwu2 & Hr2 & ->).
           split_and!; [|done|by rewrite Hr2, relayed_emit, app_nil_r|done|done].
           by apply (relay_frame_emit (EvLogAttachFailed e)).
        -- intros [= <- <-]. split_and!; try done; [apply relay_frame_refl|].
           simpl. by rewrite He.
  - destruct (webhook_send (EvPlaceholder m) r st) as [st1 s1] eqn:Hw.
    apply Hws in Hw as (Hf & Hwu & Hr & Hb & Hs); [|done..].
    destruct Hs as [->|[e ->]]; simpl.
    + intros H. apply Hcount in H as (Hf2 & Hwu2 & Hr2 & ->).
      split_and!; [by eapply Htrans|congruence|congruence|done|done].
    + intros [= <- <-]. split_and!; try done.
      intros Hbr. by specialize (Hb Hbr).
Qed.

(** ** Draining *)

Lemma finish_spec st st' t :
  finish st = (st', t) →
  t = Finished ∧ consumption_queue st' = [] ∧
  message_queue st' = message_queue st ∧
  watched_users st' = watched_users st ∧ relayed st' = relayed st ∧
  ((message_queue st = [] ∧ same_tasks st st') ∨ handed_over st st').
Proof.
  unfold finish. simpl. destruct (message_queue st) eqn:Hq.
  - intros [= <- <-]. simpl. split_and!; try done. by left.
  - intros [= <- <-]. simpl. split_and!; try done.
    + unfold relayed. simpl. rewrite omap_app. simpl. by rewrite app_nil_r.
    + right. unfold handed_over. simpl. by rewrite Hq.
Qed.

Lemma drain_spec limit pending : ∀ st st' t,
  pending = flatten (consumption_queue st) →
  drain limit pending st = (st', t) →
  message_queue st' = message_queue st ∧
  (∃ sent, relayed st' = relayed st ++ sent ∧
           flatten (consumption_queue st)
           = sent ++ flatten (consumption_queue st')) ∧
  ((t = Finished ∧ consumption_queue st' = [] ∧
    ((message_queue st = [] ∧ same_tasks st st') ∨ handed_over st st')) ∨
   (same_tasks st st' ∧
    (t = Failed KeyError ∨
     ∃ p, t = Running p ∧ in_relay p = true ∧
          (length (flatten (consumption_queue st'))
           < length (flatten (consumption_queue st)))%nat))) ∧
  (Forall (header_ready (watched_users st)) pending →
   watched_users st' = watched_users st ∧ t ≠ Failed KeyError).
Proof.
  induction pending as [|m0 pending IH]; intros st st' t Hp; simpl.
  - intros H. apply finish_spec in H as (-> & Hcq & Hmq & Hwu & Hr & Hs).
    rewrite Hcq, <- Hp, Hr. simpl.
    split_and!; [done|exists []; by rewrite app_nil_r| |done].
    left. split_and!; [done|done|done].
  - destruct (popleft (consumption_queue st)) as [[m q]|] eqn:Hpop.
    2:{ apply popleft_None in Hpop. by rewrite Hpop in Hp. }
    apply popleft_Some in Hpop as Hfl. rewrite Hfl in Hp.
    injection Hp as -> ->.
    destruct (relay_message limit m (set_consumption_queue q st))
      as [st1 s] eqn:Hrel.
    apply relay_message_spec in Hrel as (Hfr & Hrl & Hs & Hhealth).
    destruct Hfr as (Hct & Hts & Hmq & Hcq & _). simpl in *.
    rewrite Hfl.
    assert (Hnow : relayed st1 = relayed st ++ [m]) by done.
    destruct Hs as [->|[->|Hsusp]].
    + (* the relay met no await *)
      intros Hd. apply IH in Hd as (Hmq' & Hrel' & Hshape & Hh); [|by rewrite Hcq].
      split_and!.
      * congruence.
      * destruct Hrel' as (sent & Hsent & Hleft). exists (m :: sent).
        rewrite Hsent, Hnow, <- app_assoc. split; [done|].
        rewrite Hcq in Hleft. simpl. by rewrite Hleft.
      * destruct Hshape as [(-> & Hcq' & Hfin)|(Hsame & Hrun)].
        -- left. split_and!; [done|done|].
           destruct Hfin as [(Hmq0 & Hts' & Hct')|(Hne & Hts' & Hct')].
           ++ left. split; [congruence|]. unfold same_tasks in *. split; congruence.
           ++ right. unfold handed_over. rewrite <- Hmq, <- Hts.
              by split_and!.
        -- right. unfold same_tasks in *. destruct Hsame as [Ht1 Ht2].
           split; [split; congruence|].
           destruct Hrun as [->|(p & -> & Hp & Hlt)]; [by left|].
           right. exists p. split_and!; [done|done|].
           rewrite Hcq in Hlt. simpl. lia.
      * intros [Hm Hall]%Forall_cons.
        destruct (Hhealth Hm) as [Hwu _].
        rewrite Hwu in Hh. destruct (Hh Hall) as [Hwu' Ht].
        split; [congruence|done].
    + intros [= <- <-]. split_and!; [done|exists [m]; by rewrite Hcq| |].
      * right. split; [by unfold same_tasks|]. by left.
      * intros [Hm _]%Forall_cons. by destruct (Hhealth Hm).
    + assert (∃ p, s = Suspend p ∧ in_relay p = true) as (p & -> & Hp).
      { destruct Hsusp as [-> | [-> | ->]]; by eexists. }
      intros [= <- <-]. split_and!; [done|exists [m]; by rewrite Hcq| |].
      * right. split; [by unfold same_tasks|]. right. exists p.
        split_and!; [done|done|]. rewrite Hcq. simpl. lia.
      * intros [Hm _]%Forall_cons. destruct (Hhealth Hm) as [Hwu _].
        split; [done|done].
Qed.

(** ** How a step of a consume task ends *)

Lemma drain_loop_ending limit k st st' t :
  drain_loop limit st = (st', t) →
  (2 ≤ k ∨ (1 ≤ k ∧ consumption_queue st ≠ []) ∨ message_queue st = [])%nat →
  ending k (headers_ready st) st st' t ∧
  message_queue st' = message_queue st ∧
  relayed_from (flatten (consumption_queue st))
    (flatten (consumption_queue st')) st st' ∧
  (headers_ready st → watched_users st' = watched_users st).
Proof.
  unfold drain_loop. intros Hd Hk.
  apply drain_spec in Hd as (Hmq & Hrel & Hshape & Hh); [|done].
  split_and!; [|done|done|].
  2:{ intros Hr. apply Hh. unfold headers_ready in Hr.
      by apply Forall_app in Hr as [? _]. }
  destruct Hshape as [(-> & Hcq & [(Hmq0 & Hs)|(Hne & Hts & Hct)])
                     |(Hs & [->|(p & -> & Hp & Hlt)])].
  - apply ends_finished; try done. congruence.
  - apply ends_handed_over; try done.
    unfold load. rewrite Hcq, Hmq. simpl.
    destruct Hk as [Hk|[[Hk1 Hk]|Hk]]; [|  |done];
      (destruct (consumption_queue st); simpl; [done || lia|lia]).
  - apply (ends_failed _ _ _ _ _ KeyError); [done|done|].
    intros Hr. unfold headers_ready in Hr.
    apply Forall_app in Hr as [Hr _]. by destruct (Hh Hr).
  - apply (ends_suspended _ _ _ _ _ p); [done|done|].
    unfold load. rewrite Hmq.
    assert (rank (Running p) ≤ 5)%nat by (destruct p; simpl in *; lia || done).
    destruct (consumption_queue st'), (consumption_queue st); simpl in *; lia.
Qed.

Lemma begin_drain_ending limit k st st' t :
  begin_drain limit st = (st', t) →
  (1 ≤ k)%nat →
  ending k (headers_ready st) st st' t ∧
  relayed_from (pending st) (pending st') st st' ∧
  ((message_queue st' = message_queue st ∧
    relayed_from (flatten (consumption_queue st))
      (flatten (consumption_queue st')) st st') ∨
   (consumption_queue st = [] ∧ message_queue st' = [])) ∧
  (headers_ready st → watched_users st' = watched_users st).
Proof.
  unfold begin_drain. intros Hd Hk.
  destruct (consumption_queue st) as [|uq q] eqn:Hcq.
  - (* the live queue becomes the snapshot *)
    apply (drain_loop_ending _ (k - 1)) in Hd as (He & Hmq & Hrel & Hwu);
      [|by right; right].
    simpl in *.
    assert (Hready : headers_ready st →
              headers_ready (set_message_queue []
                               (set_consumption_queue (message_queue st) st))).
    { unfold headers_ready. simpl. rewrite Hcq. simpl.
      by rewrite app_nil_r. }
    split_and!.
    + destruct He as [p' ? Hs Hl| ? Hs ? ?| ? ? Hts Hct Hl|e ? Hs Hno].
      * apply (ends_suspended _ _ _ _ _ p'); [done|done|].
        revert Hl. unfold load. simpl. rewrite Hcq. simpl.
        destruct (message_queue st); simpl; lia.
      * by apply ends_finished.
      * apply ends_handed_over; try done.
        revert Hl. unfold load. simpl. rewrite Hcq. simpl.
        destruct (message_queue st); simpl; lia.
      * apply (ends_failed _ _ _ _ _ e); [done|done|]. tauto.
    + destruct Hrel as (sent & Hs1 & Hs2). exists sent. unfold pending.
      rewrite Hmq, Hcq. simpl in *. by rewrite app_nil_r, <- Hs2.
    + right. by rewrite Hmq.
    + intros Hr. apply Hwu. by apply Hready.
  - destruct (drain_loop_ending limit k _ _ _ Hd) as (He & Hmq & Hrel & Hwu).
    { right; left. by rewrite Hcq. }
    rewrite ?Hcq in *. split_and!; [done| |by left|done].
    destruct Hrel as (sent & Hs1 & Hs2). exists sent. unfold pending.
    by rewrite Hmq, Hcq, Hs2, <- app_assoc.
Qed.

Lemma ending_weaken k (ok ok' : Prop) st st' t :
  (ok' → ok) → ending k ok st st' t → ending k ok' st st' t.
Proof.
  intros Himp [p' ? ? ?| ? ? ? ?| ? ? ? ? ?|e ? ? Hno].
  - by eapply ends_suspended.
  - by apply ends_finished.
  - by apply ends_handed_over.
  - eapply ends_failed; [done|done|tauto].
Qed.

Lemma ending_frame k ok st0 st st' t :
  tasks st0 = tasks st → consume_task st0 = consume_task st →
  message_queue st0 = message_queue st →
  consumption_queue st0 = consumption_queue st →
  ending k ok st0 st' t → ending k ok st st' t.
Proof.
  intros Hts Hct Hmq Hcq.
  assert (load st0 = load st) as Hl by (unfold load; by rewrite Hmq, Hcq).
  unfold same_tasks.
  intros [p' ? [? ?] ?| ? [? ?] ? ?| ? ? ? ? ?|e ? [? ?] Hno].
  - eapply ends_suspended; [done|split; congruence|lia].
  - apply ends_finished; [done|split; congruence|done|done].
  - apply ends_handed_over; [done|done|congruence|congruence|lia].
  - eapply ends_failed; [done|split; congruence|done].
Qed.

Lemma relayed_from_refl src st st' :
  relayed st' = relayed st → relayed_from src src st st'.
Proof. intros H. exists []. by rewrite app_nil_r. Qed.

Lemma relayed_from_frame src src' st0 st st' :
  relayed st0 = relayed st →
  relayed_from src src' st0 st' → relayed_from src src' st st'.
Proof. intros H (sent & ? & ?). exists sent. by rewrite <- H. Qed.

Lemma relayed_emit_other ev st :
  (∀ m, ev ≠ EvRelay m) → relayed (emit ev st) = relayed st.
Proof.
  intros H. rewrite relayed_emit. destruct ev; try by rewrite app_nil_r.
  by edestruct H.
Qed.

Lemma relay_step_ending limit p r st st' t :
  in_relay p = true →
  match relay_resume p r st with
  | (st1, Complete) => drain_loop limit st1
  | (st1, Suspend p') => (st1, Running p')
  | (st1, Throw e) => (st1, fail e)
  end = (st', t) →
  ending (rank (Running p)) (benign r = true ∧ headers_ready st) st st' t ∧
  message_queue st' = message_queue st ∧
  relayed_from (flatten (consumption_queue st))
    (flatten (consumption_queue st')) st st' ∧
  (headers_ready st → watched_users st' = watched_users st).
Proof.
  intros Hp. destruct (relay_resume p r st) as [st1 s] eqn:Hr.
  apply relay_resume_spec in Hr as (Hfr & Hwu & Hrl & Hb & Hrank).
  destruct Hfr as (Hct & Hts & Hmq & Hcq & _).
  assert (Hready : headers_ready st → headers_ready st1).
  { unfold headers_ready. by rewrite Hwu, Hmq, Hcq. }
  destruct s as [p'| |e].
  - intros [= <- <-]. destruct (Hrank Hp p' eq_refl) as [_ Hlt].
    split_and!; [|done|rewrite Hcq; by apply relayed_from_refl|done].
    eapply ends_suspended; [done|by unfold same_tasks|].
    unfold load. rewrite Hmq, Hcq. lia.
  - intros Hd.
    destruct (drain_loop_ending limit (rank (Running p)) _ _ _ Hd)
      as (He & Hmq' & Hrel & Hwu').
    { left. destruct p; simpl in *; done || lia. }
    split_and!.
    + eapply ending_frame; [done..|]. eapply ending_weaken; [|done]. tauto.
    + congruence.
    + rewrite <- Hcq. by eapply relayed_from_frame.
    + intros H. rewrite <- Hwu. auto.
  - intros [= <- <-]. split_and!; [|done|rewrite Hcq; by apply relayed_from_refl|done].
    eapply ends_failed; [done|by unfold same_tasks|].
    intros [Hbr _]. by eapply Hb.
Qed.

Lemma relayed_from_pending st st' :
  message_queue st' = message_queue st →
  relayed_from (flatten (consumption_queue st))
    (flatten (consumption_queue st')) st st' →
  relayed_from (pending st) (pending st') st st'.
Proof.
  intros Hmq (sent & ? & Hs). exists sent. unfold pending.
  by rewrite Hmq, Hs, <- app_assoc.
Qed.

Lemma resume_task_ending log_delay limit p r st st' t :
  resume_task log_delay limit p r st = (st', t) →
  ending (rank (Running p)) (benign r = true ∧ headers_ready st) st st' t ∧
  relayed_from (pending st) (pending st') st st' ∧
  ((message_queue st' = message_queue st ∧
    relayed_from (flatten (consumption_queue st))
      (flatten (consumption_queue st')) st st') ∨
   (consumption_queue st = [] ∧ message_queue st' = [])) ∧
  (headers_ready st → watched_users st' = watched_users st).
Proof.
  assert (Hrelay : in_relay p = true →
    match relay_resume p r st with
    | (st1, Complete) => drain_loop limit st1
    | (st1, Suspend p') => (st1, Running p')
    | (st1, Throw e) => (st1, fail e)
    end = (st', t) →
    ending (rank (Running p)) (benign r = true ∧ headers_ready st) st st' t ∧
    relayed_from (pending st) (pending st') st st' ∧
    ((message_queue st' = message_queue st ∧
      relayed_from (flatten (consumption_queue st))
        (flatten (consumption_queue st')) st st') ∨
     (consumption_queue st = [] ∧ message_queue st' = [])) ∧
    (headers_ready st → watched_users st' = watched_users st)).
  { intros Hp H. apply relay_step_ending in H as (? & ? & ? & ?); [|done].
    split_and!; [done|by apply relayed_from_pending|by left|done]. }
  destruct p as [[|]| |m|m|m|m]; unfold resume_task;
    try (by apply Hrelay).
  - (* created with the delay: go to sleep *)
    intros [= <- <-]. split_and!.
    + eapply ends_suspended; [done|by unfold same_tasks|].
      unfold load. simpl. lia.
    + by apply relayed_from_refl, relayed_emit_other.
    + left. split; [done|]. by apply relayed_from_refl, relayed_emit_other.
    + done.
  - intros H. apply (begin_drain_ending _ 1) in H as (He & ? & ? & ?); [|lia].
    split_and!; try done. eapply ending_weaken; [|done]. tauto.
  - intros H. apply (begin_drain_ending _ 6) in H as (He & ? & ? & ?); [|lia].
    split_and!; try done. eapply ending_weaken; [|done]. tauto.
Qed.

(** ** Appending to the live queue *)

Lemma of_pair_app a c l1 l2 :
  of_pair a c (l1 ++ l2) = of_pair a c l1 ++ of_pair a c l2.
Proof. apply List.filter_app. Qed.

Lemma of_pair_none a c l :
  Forall (fun m => in_pair a c m = false) l → of_pair a c l = [].
Proof.
  induction 1 as [|m l Hm _ IH]; simpl; [done|]. by rewrite Hm.
Qed.


Lemma in_pair_true a c m :
  in_pair a c m = true ↔ author_id m = a ∧ channel_id m = c.
Proof. unfold in_pair. rewrite andb_true_iff, !Z.eqb_eq. done. Qed.

Lemma chans_append_perm m chs :
  chans_flatten
    (OD.alter_default [] (fun dq => dq ++ [m]) (channel_id m) chs)
  ≡ₚ chans_flatten chs ++ [m].
Proof.
  unfold chans_flatten. induction chs as [|[k dq] chs IH]; simpl; [done|].
  destruct (decide (k = channel_id m)); simpl.
  - rewrite <- !app_assoc. f_equiv. apply Permutation_app_comm.
  - rewrite IH. by rewrite app_assoc.
Qed.


Lemma chans_append_wf u m chs :
  chans_wf u chs → author_id m = u →
  chans_wf u (OD.alter_default [] (fun dq => dq ++ [m]) (channel_id m) chs).
Proof.
  unfold chans_wf. intros [Hnd Hk] Hu.
  induction chs as [|[k dq] chs IH]; simpl.
  - split; [apply NoDup_singleton|]. repeat constructor; done.
  - apply NoDup_cons in Hnd as [Hnotin Hnd].
    apply Forall_cons in Hk as [Hdq Hk]. simpl in *.
    destruct (decide (k = channel_id m)) as [->|Hne]; simpl.
    + split; [by apply NoDup_cons|]. apply Forall_cons. split; [|done].
      simpl. apply Forall_app. split; [done|]. by repeat constructor.
    + destruct (IH Hnd Hk) as [Hnd' Hk']. split.
      * apply NoDup_cons. split; [|done].
        intros Hin. apply Hnotin. clear -Hin Hne.
        induction chs as [|[k' d'] chs IH]; simpl in *.
        -- apply list_elem_of_singleton in Hin. congruence.
        -- destruct (decide (k' = channel_id m)); simpl in *; [done|].
           apply elem_of_cons in Hin as [->|Hin]; [by left|right; auto].
      * by apply Forall_cons.
Qed.

Lemma queue_append_perm m q :
  flatten (queue_append m q) ≡ₚ flatten q ++ [m].
Proof.
  unfold flatten, queue_append. induction q as [|[k chs] q IH]; simpl; [done|].
  destruct (decide (k = author_id m)); simpl.
  - rewrite chans_append_perm, <- !app_assoc. f_equiv.
    apply Permutation_app_comm.
  - rewrite IH. by rewrite app_assoc.
Qed.


Lemma queue_append_wf m q : wf_queues q → wf_queues (queue_append m q).
Proof.
  unfold wf_queues, queue_append. intros [Hnd Hk].
  induction q as [|[k chs] q IH]; simpl.
  - split; [apply NoDup_singleton|]. apply Forall_cons. split; [|done].
    simpl. split; [apply NoDup_singleton|]. by repeat constructor.
  - apply NoDup_cons in Hnd as [Hnotin Hnd].
    apply Forall_cons in Hk as [Hchs Hk]. simpl in *.
    destruct (decide (k = author_id m)) as [->|Hne]; simpl.
    + split; [by apply NoDup_cons|]. apply Forall_cons. split; [|done].
      simpl. by apply chans_append_wf.
    + destruct (IH Hnd Hk) as [Hnd' Hk']. split.
      * apply NoDup_cons. split; [|done].
        intros Hin. apply Hnotin. clear -Hin Hne.
        induction q as [|[k' d'] q IH]; simpl in *.
        -- apply list_elem_of_singleton in Hin. congruence.
        -- destruct (decide (k' = author_id m)); simpl in *; [done|].
           apply elem_of_cons in Hin as [->|Hin]; [by left|right; auto].
      * by apply Forall_cons.
Qed.

(** ** Invariants of a run without failures *)


Lemma resume_noop log_delay limit tid r st :
  (∀ p, tasks st !! tid ≠ Some (Running p)) →
  resume log_delay limit tid r st = st.
Proof.
  intros H. unfold resume. destruct (tasks st !! tid) as [[p| | |]|] eqn:Ht;
    try done. by destruct (H p).
Qed.

Section Steps.
Variable log_delay : Z.
Variable limit : Z.

End Steps.

Lemma relayed_same_trace st st' :
  trace st' = trace st → relayed st' = relayed st.
Proof. unfold relayed. by intros ->. Qed.




Section Runs.
Variable log_delay : Z.
Variable limit : Z.



End Runs.

(** ** Every accepted message is relayed once, in order *)






(** ** Intake *)





Lemma consuming_messages_cases st :
  match consume_task st with
  | None => consuming_messages st = (st, Ok false)
  | Some tid =>
      match task_of st tid with
      | Running _ => consuming_messages st = (st, Ok true)
      | Finished => consuming_messages st = (st, Ok false)
      | Failed e =>
          consuming_messages st = (emit (EvLogTaskFailed e) st, Ok false)
      | Cancelled => consuming_messages st = (st, Raise CancelledError)
      end
  end.
Proof.
  unfold consuming_messages. destruct (consume_task st) as [tid|]; [|done].
  by destruct (task_of st tid).
Qed.

(** The four ways [on_message] can go. *)
Lemma on_message_cases m st :
  (watched m st = false ∧ on_message m st = (st, Ok tt)) ∨
  (watched m st = true ∧
   (∃ tid, consume_task st = Some tid ∧ task_of st tid = Cancelled) ∧
   on_message m st = (st, Raise CancelledError)) ∨
  (watched m st = true ∧ snd (consuming_messages st) = Ok true ∧
   on_message m st
   = (set_message_queue (queue_append m (message_queue st)) st, Ok tt)) ∨
  (watched m st = true ∧ snd (consuming_messages st) = Ok false ∧
   (∀ tid p, consume_task st = Some tid → task_of st tid ≠ Running p) ∧
   ∃ st0,
     (st0 = st ∨
      ∃ tid e, consume_task st = Some tid ∧ task_of st tid = Failed e ∧
               st0 = emit (EvLogTaskFailed e) st) ∧
     on_message m st
     = (set_message_queue (queue_append m (message_queue st))
          (set_consume_task (Some (length (tasks st)))
             (emit (EvCreateTask (length (tasks st)))
                (set_tasks (tasks st ++ [Running (PcCreated true)]) st0))),
        Ok tt)).
Proof.
  unfold on_message. destruct (watched m st) eqn:Hw; [|by left].
  right. pose proof (consuming_messages_cases st) as Hcm.
  destruct (consume_task st) as [tid|] eqn:Hct.
  - destruct (task_of st tid) as [p| |e|] eqn:Ht; rewrite Hcm; simpl.
    + right. left. done.
    + right. right. split_and!; [done|done| |].
      * intros j p [= <-]. by rewrite Ht.
      * exists st. split; [by left|done].
    + right. right. split_and!; [done|done| |].
      * intros j p [= <-]. by rewrite Ht.
      * exists (emit (EvLogTaskFailed e) st). split; [|done].
        right. by exists tid, e.
    + left. split; [done|]. split; [by exists tid|done].
  - rewrite Hcm. right. right. split_and!; [done|done|done|].
    exists st. split; [by left|done].
Qed.

(** ** Single flight *)

Lemma single_flight_spawn st d :
  single_flight st →
  (∀ tid p, consume_task st = Some tid → task_of st tid ≠ Running p) →
  ∀ st', tasks st' = tasks st ++ [Running (PcCreated d)] →
         consume_task st' = Some (length (tasks st)) →
         single_flight st'.
Proof.
  intros [Hsf Hvalid] Hnot st' Hts Hct. split.
  - intros j p Hj. rewrite Hts in Hj. rewrite Hct.
    destruct (decide (j < length (tasks st))%nat).
    + rewrite lookup_app_l in Hj by done. apply Hsf in Hj as Hj'.
      exfalso. apply (Hnot j p Hj'). unfold task_of. by rewrite Hj.
    + apply lookup_lt_Some in Hj as Hjl.
      rewrite length_app in Hjl. simpl in Hjl. f_equal. lia.
  - intros j. rewrite Hct, Hts, length_app. intros [= <-]. simpl. lia.
Qed.

Section Flight.
Variable log_delay : Z.
Variable limit : Z.

Lemma resume_single_flight tid r st :
  single_flight st → single_flight (resume log_delay limit tid r st).
Proof.
  intros Hs. pose proof Hs as [Hsf Hvalid]. unfold resume.
  destruct (tasks st !! tid) as [[p| | |]|] eqn:Ht; try done.
  assert (consume_task st = Some tid) as Hct by eauto.
  assert (tid < length (tasks st))%nat as Hlt by eauto.
  destruct (resume_task log_delay limit p r st) as [st1 t] eqn:Hr.
  apply resume_task_ending in Hr as (He & _).
  assert (Hsame : same_tasks st st1 →
            single_flight (set_tasks (<[tid:=t]> (tasks st1)) st1)).
  { intros [Hts Hc]. split; simpl.
    - intros j q Hj. rewrite Hc.
      destruct (decide (j = tid)) as [->|Hne]; [done|].
      rewrite list_lookup_insert_ne in Hj by done. rewrite Hts in Hj. eauto.
    - intros j. rewrite Hc, length_insert, Hts. auto. }
  destruct He as [p' -> Hs1 _| -> Hs1 _ _| -> _ Hts Hc _|e -> Hs1 _]; auto.
  split; simpl.
  - intros j q Hj. rewrite Hc.
    destruct (decide (j = tid)) as [->|Hne].
    + rewrite list_lookup_insert_eq in Hj; [done|].
      rewrite Hts, length_app. lia.
    + rewrite list_lookup_insert_ne in Hj by done. rewrite Hts in Hj.
      destruct (decide (j < length (tasks st))%nat).
      * rewrite lookup_app_l in Hj by done. apply Hsf in Hj. congruence.
      * apply lookup_lt_Some in Hj as Hjl.
        rewrite length_app in Hjl. simpl in Hjl. f_equal. lia.
  - intros j. rewrite Hc, length_insert, Hts, length_app.
    intros [= <-]. simpl. lia.
Qed.

Lemma handle_single_flight ev st :
  single_flight st → single_flight (handle log_delay limit ev st).
Proof.
  intros Hs. destruct ev as [m|tid r|tid| |r]; simpl.
  - destruct (on_message_cases m st)
      as [[_ ->]|[(_ & _ & ->)|[(_ & _ & ->)|(_ & _ & Hnot & s0 & Hs0 & ->)]]];
      try done.
    simpl. eapply (single_flight_spawn st true); [done|done| |done].
    by destruct Hs0 as [->|(? & ? & _ & _ & ->)].
  - by apply resume_single_flight.
  - unfold cancel. destruct (tasks st !! tid) as [[p| | |]|] eqn:Ht; try done.
    destruct Hs as [Hsf Hvalid]. split; simpl.
    + intros j q Hj. destruct (decide (j = tid)) as [->|Hne].
      * rewrite list_lookup_insert_eq in Hj; [done|].
        by eapply lookup_lt_Some.
      * rewrite list_lookup_insert_ne in Hj by done. eauto.
    + intros j Hj. rewrite length_insert. auto.
  - unfold cog_unload. destruct (consume_task st) as [tid|] eqn:Hct; [|done].
    destruct (done (task_of st tid)); [done|]. simpl.
    unfold cancel. destruct (tasks st !! tid) as [[p| | |]|] eqn:Ht; try done.
    destruct Hs as [Hsf Hvalid]. split; simpl.
    + intros j q Hj. destruct (decide (j = tid)) as [->|Hne].
      * rewrite list_lookup_insert_eq in Hj; [done|].
        by eapply lookup_lt_Some.
      * rewrite list_lookup_insert_ne in Hj by done. eauto.
    + intros j Hj. rewrite length_insert. auto.
  - destruct (fetch_user_cache r st) as [st' out] eqn:Hf. simpl.
    unfold fetch_user_cache in Hf. destruct Hs as [Hsf Hvalid].
    destruct r as [data|e].
    + apply fill_cache_frame in Hf as (Hc & Ht & _). simpl in *.
      split; rewrite Hc, Ht; auto.
    + destruct (decide (e = ClientResponseError)); injection Hf as <- <-;
        by split.
Qed.

Lemma run_single_flight evs st :
  single_flight st → single_flight (run log_delay limit evs st).
Proof.
  revert st. induction evs as [|ev evs IH]; simpl; intros st Hs; [done|].
  by apply IH, handle_single_flight.
Qed.
End Flight.

(** C4: whatever happens to the cog after its construction (messages,
    task steps with any outcome, cancellations, unloading, refreshes of
    the cache), at most one consume task is running, and it is the one
    [self._consume_task] refers to.  [on_message] creates a task only after
    [consuming_messages] answered [False], which it does only when no task
    is running; and when the previous task ended with an exception, that
    exception is logged first, then the new task is created. *)
Theorem single_flight_always (log_delay limit : Z) (evs : list event) :
  let st := run log_delay limit evs init in
  (∀ tid1 tid2 p1 p2,
     tasks st !! tid1 = Some (Running p1) →
     tasks st !! tid2 = Some (Running p2) → tid1 = tid2) ∧
  (∀ tid p, tasks st !! tid = Some (Running p) → consume_task st = Some tid) ∧
  (∀ m, tasks (fst (on_message m st)) = tasks st ∨
        (snd (consuming_messages st) = Ok false ∧
         (∀ tid p, tasks st !! tid ≠ Some (Running p)) ∧
         tasks (fst (on_message m st))
         = tasks st ++ [Running (PcCreated true)] ∧
         consume_task (fst (on_message m st)) = Some (length (tasks st)))) ∧
  (∀ m tid e,
     watched m st = true → consume_task st = Some tid →
     task_of st tid = Failed e →
     trace (fst (on_message m st))
     = trace st ++ [EvLogTaskFailed e; EvCreateTask (length (tasks st))]).
Proof.
  intros st.
  assert (Hs : single_flight st).
  { apply run_single_flight. split; simpl; [|done].
    intros tid p Hl. by rewrite lookup_nil in Hl. }
  destruct Hs as [Hsf Hvalid]. split_and!.
  - intros tid1 tid2 p1 p2 H1 H2. apply Hsf in H1, H2. congruence.
  - done.
  - intros m.
    destruct (on_message_cases m st)
      as [[_ ->]|[(_ & _ & ->)|[(_ & _ & ->)|(_ & Hcm & Hnot & s0 & Hs0 & ->)]]];
      try by left.
    right. simpl. split_and!; [done| | |done].
    + intros tid p Ht. apply Hsf in Ht as Hct.
      apply (Hnot tid p Hct). unfold task_of. by rewrite Ht.
    + by destruct Hs0 as [->|(? & ? & _ & _ & ->)].
  - intros m tid e Hw Hct Ht. unfold on_message, consuming_messages.
    rewrite Hw, Hct, Ht. simpl. by rewrite <- app_assoc.
Qed.


(** ** Resuming a snapshot *)

Section Resumption.
Variable log_delay : Z.
Variable limit : Z.

End Resumption.

Lemma interrupted_tasks : tasks interrupted = [Cancelled].
Proof. vm_compute. reflexivity. Qed.

Lemma interrupted_handle : consume_task interrupted = Some 0%nat.
Proof. vm_compute. reflexivity. Qed.


Lemma interrupted_single_flight : single_flight interrupted.
Proof.
  unfold single_flight. rewrite interrupted_tasks, interrupted_handle.
  split.
  - intros j p. destruct j as [|j]; simpl; [done|]. by rewrite lookup_nil.
  - intros j [= <-]. simpl. lia.
Qed.


(** The scenario of C2 on the model: [B1] was relayed before the
    cancellation and is not sent again; [A2] is relayed by the next run,
    without a header, the tracker still being on its author and channel. *)
Example interrupted_then_resumed :
  relayed interrupted = [B1] ∧
  delivered interrupted = [EvHeader B1; EvBody B1] ∧
  flatten (consumption_queue interrupted) = [A2] ∧
  let st := settle 2 3 (repeat Returned 16) (restart interrupted) in
  relayed st = [B1; A2] ∧
  delivered st = [EvHeader B1; EvBody B1; EvBody A2] ∧
  tasks st = [Cancelled; Finished].
Proof. vm_compute. by split_and!. Qed.

(** ** Unloading before the first task *)

(** C10: as long as no consume task has been created, whatever else
    happened to the cog since its construction (messages of users that
    are not watched, refreshes of the cache, steps of the loop),
    [self._consume_task] is still the [None] of [__init__] and
    [cog_unload] raises [AttributeError], leaving the cog as it was. *)
Theorem cog_unload_before_first_task
  (log_delay limit : Z) (evs : list event) :
  tasks (run log_delay limit evs init) = [] →
  consume_task (run log_delay limit evs init) = None ∧
  cog_unload (run log_delay limit evs init)
  = (run log_delay limit evs init, Raise AttributeError).
Proof.
  intros Hts.
  assert (Hs : single_flight (run log_delay limit evs init)).
  { apply run_single_flight. split; simpl; [|done].
    intros tid p Hl. by rewrite lookup_nil in Hl. }
  assert (Hnone : consume_task (run log_delay limit evs init) = None).
  { destruct Hs as [_ Hvalid].
    destruct (consume_task (run log_delay limit evs init)) as [tid|]; [|done].
    specialize (Hvalid tid eq_refl). rewrite Hts in Hvalid.
    simpl in Hvalid. lia. }
  split; [done|]. by apply cog_unload_without_task.
Qed.

Lemma cog_unload_before_first_task_witness :
  tasks (run 2 3 [Arrive A1; Refresh (ApiRaised ClientResponseError)] init)
  = [] ∧
  cog_unload (run 2 3 [Arrive A1; Refresh (ApiRaised ClientResponseError)] init)
  = (run 2 3 [Arrive A1; Refresh (ApiRaised ClientResponseError)] init,
     Raise AttributeError).
Proof.
  assert (H : tasks (run 2 3 [Arrive A1;
                              Refresh (ApiRaised ClientResponseError)] init)
              = []) by reflexivity.
  split; [exact H|].
  exact (proj2 (cog_unload_before_first_task 2 3
                  [Arrive A1; Refresh (ApiRaised ClientResponseError)] H)).
Defined.

(** ** Two remarks *)

(** The header tracker belongs to the cog, not to a consume task: when a
    later consume task starts with a message of the author and channel
    that the tracker is still on, and the count is under the limit, that
    message gets no header. *)
Example later_task_continues_the_group :
  let st := run 2 3
              [Arrive A1; Resume 0 Returned; Resume 0 Returned;
               Resume 0 Returned; Resume 0 Returned;
               Arrive A2; Resume 1 Returned; Resume 1 Returned;
               Resume 1 Returned]
              (started watch5) in
  tasks st = [Finished; Finished] ∧
  delivered st = [EvHeader A1; EvBody A1; EvBody A2].
Proof. vm_compute. by split. Qed.

(** After a cancellation [Task.exception()] raises [CancelledError] inside
    [consuming_messages]: [on_message] raises too and queues nothing. *)
Lemma on_message_after_cancellation (m : Msg) (st : State) (tid : nat) :
  watched m st = true → consume_task st = Some tid →
  task_of st tid = Cancelled →
  on_message m st = (st, Raise CancelledError).
Proof.
  intros Hw Hct Ht. unfold on_message, consuming_messages.
  by rewrite Hw, Hct, Ht.
Qed.

(** * Further properties of the code *)

Lemma resume_conserves log_delay limit tid r st :
  relayed_from (pending st) (pending (resume log_delay limit tid r st))
    st (resume log_delay limit tid r st).
Proof.
  unfold resume. destruct (tasks st !! tid) as [[p| | |]|] eqn:Ht;
    try by apply relayed_from_refl.
  destruct (resume_task log_delay limit p r st) as [st1 t] eqn:Hr.
  apply resume_task_ending in Hr as (_ & Hrel & _). exact Hrel.
Qed.

Lemma fetch_user_cache_queues r st :
  let st' := fst (fetch_user_cache r st) in
  consume_task st' = consume_task st ∧ tasks st' = tasks st ∧
  message_queue st' = message_queue st ∧
  consumption_queue st' = consumption_queue st ∧
  message_history st' = message_history st ∧
  relayed st' = relayed st.
Proof.
  unfold fetch_user_cache. destruct r as [data|e]; simpl.
  - destruct (fill_cache data (set_watched_users ∅ (emit EvApiGet st)))
      as [st' out] eqn:Hf.
    apply fill_cache_frame in Hf as (? & ? & ? & ? & ? & _ & Ht & _).
    simpl in *. split_and!; try done.
    unfold relayed. rewrite Ht. simpl. rewrite omap_app. simpl.
    by rewrite app_nil_r.
  - destruct (decide (e = ClientResponseError)); simpl; split_and!; try done;
      unfold relayed; simpl; rewrite !omap_app; simpl; by rewrite ?app_nil_r.
Qed.

Lemma cancel_frame tid st :
  consume_task (cancel tid st) = consume_task st ∧
  message_queue (cancel tid st) = message_queue st ∧
  consumption_queue (cancel tid st) = consumption_queue st ∧
  message_history (cancel tid st) = message_history st ∧
  watched_users (cancel tid st) = watched_users st ∧
  trace (cancel tid st) = trace st ∧
  length (tasks (cancel tid st)) = length (tasks st).
Proof.
  unfold cancel. destruct (tasks st !! tid) as [[p| | |]|]; simpl;
    split_and!; try done. by rewrite length_insert.
Qed.

Lemma cog_unload_frame st :
  let st' := fst (cog_unload st) in
  consume_task st' = consume_task st ∧
  message_queue st' = message_queue st ∧
  consumption_queue st' = consumption_queue st ∧
  message_history st' = message_history st ∧
  watched_users st' = watched_users st ∧
  trace st' = trace st ∧
  length (tasks st') = length (tasks st).
Proof.
  unfold cog_unload. destruct (consume_task st) as [tid|] eqn:Hct; simpl;
    [|by split_and!].
  destruct (done (task_of st tid)); simpl; [by split_and!|].
  rewrite <- Hct. apply cancel_frame.
Qed.

Lemma handle_conserves log_delay limit ev st :
  let st' := handle log_delay limit ev st in
  relayed st' ++ pending st' ≡ₚ
  (relayed st ++ pending st)
  ++ match ev with
     | Arrive m => if takes_in m st then [m] else []
     | _ => []
     end.
Proof.
  destruct ev as [m|tid r|tid| |r]; simpl.
  - unfold takes_in.
    destruct (on_message_cases m st)
      as [[Hw ->]|[(Hw & _ & ->)|[(Hw & _ & ->)|(Hw & _ & _ & s0 & Hs0 & ->)]]];
      rewrite Hw; simpl; rewrite ?app_nil_r; try done.
    + unfold pending. simpl. rewrite queue_append_perm.
      by rewrite !app_assoc.
    + assert (relayed s0 = relayed st) as Hr.
      { destruct Hs0 as [->|(? & ? & _ & _ & ->)]; [done|].
        by apply relayed_emit_other. }
      unfold pending, relayed. simpl. rewrite omap_app. simpl.
      rewrite app_nil_r. fold (relayed s0). rewrite Hr.
      assert (consumption_queue s0 = consumption_queue st) as ->.
      { by destruct Hs0 as [->|(? & ? & _ & _ & ->)]. }
      assert (message_queue s0 = message_queue st) as Hmq.
      { by destruct Hs0 as [->|(? & ? & _ & _ & ->)]. }
      rewrite queue_append_perm. by rewrite !app_assoc.
  - destruct (resume_conserves log_delay limit tid r st) as (sent & Hs1 & Hs2).
    rewrite app_nil_r, Hs1, Hs2. by rewrite <- app_assoc.
  - destruct (cancel_frame tid st) as (_ & Hmq & Hcq & _ & _ & Ht & _).
    unfold pending, relayed. by rewrite Hmq, Hcq, Ht, app_nil_r.
  - destruct (cog_unload_frame st) as (_ & Hmq & Hcq & _ & _ & Ht & _).
    unfold pending, relayed. by rewrite Hmq, Hcq, Ht, app_nil_r.
  - destruct (fetch_user_cache_queues r st) as (_ & _ & Hmq & Hcq & _ & Hr).
    unfold pending. by rewrite Hmq, Hcq, Hr, app_nil_r.
Qed.

Lemma taken_in_sublist log_delay limit evs : ∀ st,
  taken_in log_delay limit evs st `sublist_of` arrivals evs.
Proof.
  induction evs as [|ev evs IH]; intros st; simpl; [done|].
  destruct ev as [m|tid r|tid| |r]; simpl; try apply IH.
  destruct (takes_in m st); simpl.
  - apply sublist_skip, IH.
  - apply sublist_cons, IH.
Qed.

Lemma run_conserves log_delay limit evs : ∀ st,
  relayed (run log_delay limit evs st) ++ pending (run log_delay limit evs st)
  ≡ₚ (relayed st ++ pending st) ++ taken_in log_delay limit evs st.
Proof.
  induction evs as [|ev evs IH]; intros st.
  - simpl. by rewrite app_nil_r.
  - change (run log_delay limit (ev :: evs) st)
      with (run log_delay limit evs (handle log_delay limit ev st)).
    rewrite IH, handle_conserves. simpl. by rewrite <- app_assoc.
Qed.

(** X1: whatever happens to the cog (messages arrive, tasks run and their
    sends return or raise anything, tasks are cancelled, the cog is
    unloaded, the cache is refreshed), the messages handed to
    [relay_message] together with the messages still in the two queues
    are, as a multiset, what was there at the start plus the messages that
    [on_message] took in; those are among the messages that arrived, in
    their order.  So no message is ever handed to [relay_message] twice,
    and none that was handed over is still queued. *)
Theorem taken_in_is_relayed_or_pending
  (log_delay limit : Z) (evs : list event) (st : State) :
  let st' := run log_delay limit evs st in
  relayed st' ++ pending st'
  ≡ₚ (relayed st ++ pending st) ++ taken_in log_delay limit evs st ∧
  taken_in log_delay limit evs st `sublist_of` arrivals evs ∧
  (NoDup ((relayed st ++ pending st) ++ arrivals evs) →
   NoDup (relayed st' ++ pending st') ∧
   ∀ m, m ∈ relayed st' → m ∉ pending st').
Proof.
  intros st'. pose proof (run_conserves log_delay limit evs st) as Hperm.
  pose proof (taken_in_sublist log_delay limit evs st) as Hsub.
  split_and!; [done|done|]. intros Hnd.
  assert (NoDup (relayed st' ++ pending st')) as Hnd'.
  { subst st'. rewrite Hperm. assert ((relayed st ++ pending st) ++ taken_in log_delay limit evs st
            `sublist_of` (relayed st ++ pending st) ++ arrivals evs) as Hs
      by by apply sublist_app.
    exact (sublist_NoDup _ _ Hnd Hs). }
  split; [done|]. intros m Hm Hp.
  apply NoDup_app in Hnd' as (_ & Hdis & _). by eapply Hdis.
Qed.

Lemma stuck_no_running st :
  single_flight st → stuck st → ∀ tid p, tasks st !! tid ≠ Some (Running p).
Proof.
  intros [Hsf _] (tid0 & Hct & Ht) tid p Hl.
  apply Hsf in Hl as Hc. assert (tid = tid0) as -> by congruence.
  unfold task_of in Ht. by rewrite Hl in Ht.
Qed.

Lemma stuck_handle log_delay limit ev st :
  single_flight st → stuck st →
  let st' := handle log_delay limit ev st in
  stuck st' ∧
  tasks st' = tasks st ∧ consume_task st' = consume_task st ∧
  message_queue st' = message_queue st ∧
  consumption_queue st' = consumption_queue st ∧
  message_history st' = message_history st ∧ relayed st' = relayed st.
Proof.
  intros Hs Hst. pose proof (stuck_no_running st Hs Hst) as Hno.
  pose proof Hst as (tid0 & Hct & Ht).
  destruct ev as [m|tid r|tid| |r]; simpl.
  - destruct (on_message_cases m st)
      as [[_ ->]|[(_ & _ & ->)|[(_ & Hcm & _)|(_ & Hcm & _)]]];
      try (by split_and!);
      unfold consuming_messages in Hcm; by rewrite Hct, Ht in Hcm.
  - rewrite resume_noop by done. by split_and!.
  - unfold cancel. destruct (tasks st !! tid) as [[p| | |]|] eqn:Hl;
      try (by split_and!). by destruct (Hno tid p).
  - unfold cog_unload. rewrite Hct, Ht. simpl. by split_and!.
  - destruct (fetch_user_cache_queues r st) as (Hc & Hts & Hmq & Hcq & Hh & Hr).
    split_and!; try done.
    exists tid0. unfold task_of. by rewrite Hc, Hts.
Qed.

Lemma stuck_run log_delay limit evs : ∀ st,
  single_flight st → stuck st →
  let st' := run log_delay limit evs st in
  stuck st' ∧
  tasks st' = tasks st ∧ consume_task st' = consume_task st ∧
  message_queue st' = message_queue st ∧
  consumption_queue st' = consumption_queue st ∧
  message_history st' = message_history st ∧ relayed st' = relayed st.
Proof.
  induction evs as [|ev evs IH]; intros st Hs Hst; [by split_and!|].
  change (run log_delay limit (ev :: evs) st)
    with (run log_delay limit evs (handle log_delay limit ev st)).
  destruct (stuck_handle log_delay limit ev st Hs Hst)
    as (Hst' & Hts & Hc & Hmq & Hcq & Hh & Hr).
  destruct (IH (handle log_delay limit ev st)) as (? & ? & ? & ? & ? & ? & ?);
    [by apply handle_single_flight|done|].
  split_and!; congruence.
Qed.

(** X2: once the task that [self._consume_task] refers to has been
    cancelled, nothing moves any more: whatever comes next, the tasks, the
    handle, both queues and the header tracker stay as they are, nothing is
    handed to [relay_message], and [on_message] raises [CancelledError]
    for every message of a watched user (out of [Task.exception()]),
    without queueing it. *)
Theorem nothing_is_relayed_after_cancellation
  (log_delay limit : Z) (st : State) (evs : list event) :
  single_flight st → stuck st →
  let st' := run log_delay limit evs st in
  tasks st' = tasks st ∧ consume_task st' = consume_task st ∧
  message_queue st' = message_queue st ∧
  consumption_queue st' = consumption_queue st ∧
  message_history st' = message_history st ∧
  relayed st' = relayed st ∧
  ∀ m, watched m st' = true → on_message m st' = (st', Raise CancelledError).
Proof.
  intros Hs Hst st'.
  destruct (stuck_run log_delay limit evs st Hs Hst)
    as ((tid & Hct & Ht) & ? & ? & ? & ? & ? & ?).
  split_and!; try done.
  intros m Hw. subst st'. unfold on_message, consuming_messages.
  by rewrite Hw, Hct, Ht.
Qed.

Lemma interrupted_stuck : stuck interrupted.
Proof.
  exists 0%nat. split; [exact interrupted_handle|].
  unfold task_of. by rewrite interrupted_tasks.
Qed.

Lemma nothing_is_relayed_after_cancellation_witness :
  single_flight interrupted ∧ stuck interrupted ∧
  let st' := run 2 3 [Arrive A3; Resume 0 Returned] interrupted in
  tasks st' = tasks interrupted ∧ consume_task st' = consume_task interrupted ∧
  message_queue st' = message_queue interrupted ∧
  consumption_queue st' = consumption_queue interrupted ∧
  message_history st' = message_history interrupted ∧
  relayed st' = relayed interrupted ∧
  ∀ m, watched m st' = true → on_message m st' = (st', Raise CancelledError).
Proof.
  split; [exact interrupted_single_flight|]. split; [exact interrupted_stuck|].
  exact (nothing_is_relayed_after_cancellation 2 3 interrupted
           [Arrive A3; Resume 0 Returned]
           interrupted_single_flight interrupted_stuck).
Defined.

Lemma handle_tracks log_delay limit ev st :
  handle_tracks_tasks st →
  handle_tracks_tasks (handle log_delay limit ev st).
Proof.
  unfold handle_tracks_tasks. intros Hinv.
  destruct ev as [m|tid r|tid| |r]; simpl.
  - destruct (on_message_cases m st)
      as [[_ ->]|[(_ & _ & ->)|[(_ & _ & ->)|(_ & _ & _ & s0 & _ & ->)]]];
      try done.
  - unfold resume. destruct (tasks st !! tid) as [[p| | |]|] eqn:Hl; try done.
    assert (consume_task st ≠ None) as Hsome.
    { intros Hn. apply Hinv in Hn. by rewrite Hn, lookup_nil in Hl. }
    destruct (resume_task log_delay limit p r st) as [st1 t] eqn:Hr.
    apply resume_task_ending in Hr as (He & _). simpl.
    destruct He as [p' _ [_ Hc] _| _ [_ Hc] _ _| _ _ _ Hc _|e _ [_ Hc] _];
      congruence.
  - destruct (cancel_frame tid st) as (Hc & _ & _ & _ & _ & _ & Hlen).
    rewrite Hc. intros Hn. apply Hinv in Hn. rewrite Hn in Hlen.
    by apply nil_length_inv.
  - destruct (cog_unload_frame st) as (Hc & _ & _ & _ & _ & _ & Hlen).
    rewrite Hc. intros Hn. apply Hinv in Hn. rewrite Hn in Hlen.
    by apply nil_length_inv.
  - destruct (fetch_user_cache_queues r st) as (Hc & Hts & _).
    by rewrite Hc, Hts.
Qed.

Lemma run_tracks log_delay limit evs : ∀ st,
  handle_tracks_tasks st → handle_tracks_tasks (run log_delay limit evs st).
Proof.
  induction evs as [|ev evs IH]; intros st H; [done|].
  apply IH. by apply handle_tracks.
Qed.

Lemma init_single_flight : single_flight init.
Proof.
  split; simpl; [|done]. intros tid p Hl. by rewrite lookup_nil in Hl.
Qed.

(** X3: [cog_unload] in any state the cog can reach.  With no task ever
    created it raises [AttributeError]; with a task still running it
    cancels that task and then raises [InvalidStateError] out of
    [result()], the handle being left on the cancelled task; with every
    task done it returns.  In each case no task is running afterwards,
    and the queues and the trace are untouched: what was pending stays
    pending. *)
Theorem cog_unload_outcomes (log_delay limit : Z) (evs : list event) :
  let st := run log_delay limit evs init in
  let res := cog_unload st in
  (tasks st = [] → res = (st, Raise AttributeError)) ∧
  ((∃ tid p, tasks st !! tid = Some (Running p)) →
   snd res = Raise InvalidStateError ∧ stuck (fst res) ∧
   single_flight (fst res)) ∧
  (tasks st ≠ [] → (∀ tid t, tasks st !! tid = Some t → done t = true) →
   res = (st, Ok tt)) ∧
  (∀ tid t, tasks (fst res) !! tid = Some t → done t = true) ∧
  message_queue (fst res) = message_queue st ∧
  consumption_queue (fst res) = consumption_queue st ∧
  trace (fst res) = trace st.
Proof.
  intros st res.
  assert (Hs : single_flight st) by apply run_single_flight, init_single_flight.
  assert (Htr : handle_tracks_tasks st) by by apply run_tracks.
  pose proof Hs as [Hsf Hvalid].
  destruct (cog_unload_frame st) as (_ & Hmq & Hcq & _ & _ & Ht & _).
  split_and!; try done.
  - intros Hnil. subst res. unfold cog_unload.
    destruct (consume_task st) as [tid|] eqn:Hct; [|done].
    specialize (Hvalid tid eq_refl). rewrite Hnil in Hvalid. simpl in Hvalid. lia.
  - intros (tid & p & Hl). apply Hsf in Hl as Hct.
    subst res. unfold cog_unload. rewrite Hct. unfold task_of. rewrite Hl.
    simpl. unfold cancel. rewrite Hl.
    assert (Hlt : (tid < length (tasks st))%nat) by by eapply lookup_lt_Some.
    split_and!; [done| |].
    + exists tid. simpl. split; [done|]. unfold task_of. simpl.
      by rewrite list_lookup_insert_eq.
    + split; simpl.
      * intros j q Hj. destruct (decide (j = tid)) as [->|Hne].
        -- by rewrite list_lookup_insert_eq in Hj.
        -- rewrite list_lookup_insert_ne in Hj by done. eauto.
      * intros j Hj. rewrite length_insert. auto.
  - intros Hne Hdone. subst res. unfold cog_unload.
    destruct (consume_task st) as [tid|] eqn:Hct.
    + specialize (Hvalid tid eq_refl).
      destruct (lookup_lt_is_Some_2 _ _ Hvalid) as [t Hl].
      unfold task_of. rewrite Hl. simpl. by rewrite (Hdone tid t Hl).
    + by destruct Hne; apply Htr.
  - subst res. unfold cog_unload.
    destruct (consume_task st) as [tid|] eqn:Hct; simpl.
    + destruct (done (task_of st tid)) eqn:Hd; simpl.
      * intros j t Hj. destruct t as [p| | |]; try done.
        apply Hsf in Hj as Hc. assert (j = tid) as -> by congruence.
        unfold task_of in Hd. by rewrite Hj in Hd.
      * unfold cancel. destruct (tasks st !! tid) as [[p| | |]|] eqn:Hl;
          unfold task_of in Hd; rewrite Hl in Hd; try done. simpl.
        intros j t Hj. destruct (decide (j = tid)) as [->|Hne].
        -- rewrite list_lookup_insert_eq in Hj by by eapply lookup_lt_Some.
           by injection Hj as <-.
        -- rewrite list_lookup_insert_ne in Hj by done.
           destruct t as [q| | |]; try done.
           apply Hsf in Hj. congruence.
    + intros j t Hj. rewrite (Htr Hct), lookup_nil in Hj. done.
Qed.

Lemma relay_content_count limit m st st' s :
  relay_content m st = (st', s) →
  0 ≤ count st < Z.max limit 1 →
  0 ≤ count st' ≤ Z.max limit 1 ∧
  (∀ p, s = Suspend p → in_relay p = true ∧ count st' < Z.max limit 1).
Proof.
  unfold relay_content, relay_attachments, relay_count, count.
  destruct (clean_content m), (attachments m); intros [= <- <-]; simpl;
    intros ?; (split; [lia|]); intros p [= <-] || intros p [=]; split; done || lia.
Qed.

Lemma relay_message_count limit m st st' s :
  relay_message limit m st = (st', s) →
  0 ≤ count st ≤ Z.max limit 1 →
  0 ≤ count st' ≤ Z.max limit 1 ∧
  (∀ p, s = Suspend p → in_relay p = true ∧ count st' < Z.max limit 1).
Proof.
  unfold relay_message.
  destruct (needs_header limit m (message_history (emit (EvRelay m) st))) eqn:Hn.
  - unfold send_header, count. simpl.
    destruct (watched_users st !! JInt (author_id m)) as [e|]; simpl.
    + destruct (e !! "actor"), (e !! "inserted_at"), (e !! "reason");
        intros [= <- <-]; simpl; intros ?; (split; [lia|]);
        intros p [= <-] || intros p [=]; split; done || lia.
    + rewrite lookup_empty. simpl. intros [= <- <-]; simpl. intros ?.
      split; [lia|]. intros p [=].
  - intros Hr Hc. eapply relay_content_count; [exact Hr|].
    unfold needs_header in Hn. simpl in Hn.
    apply orb_false_iff in Hn as [_ Hn]. apply bool_decide_eq_false in Hn.
    unfold count in *. simpl. lia.
Qed.

Lemma relay_resume_count limit p r st st' s :
  in_relay p = true →
  relay_resume p r st = (st', s) →
  0 ≤ count st < Z.max limit 1 →
  0 ≤ count st' ≤ Z.max limit 1 ∧
  (∀ p', s = Suspend p' → in_relay p' = true ∧ count st' < Z.max limit 1).
Proof.
  intros Hp.
  assert (Hws : ∀ ev st0 st1 s1, webhook_send ev r st0 = (st1, s1) →
            count st1 = count st0 ∧ ∀ p', s1 ≠ Suspend p').
  { intros ev st0 st1 s1. unfold webhook_send.
    destruct r as [|e]; [|destruct (is_http e)]; by intros [= <- <-]. }
  assert (Hcount : ∀ st0 st1 s1, relay_count st0 = (st1, s1) →
            0 ≤ count st0 < Z.max limit 1 →
            0 ≤ count st1 ≤ Z.max limit 1 ∧ ∀ p',
              s1 = Suspend p' → in_relay p' = true ∧ count st1 < Z.max limit 1).
  { unfold relay_count, count. intros st0 st1 s1 [= <- <-] ?. simpl.
    split; [lia|]. by intros p' [=]. }
  assert (Hatt : ∀ m st0 st1 s1, relay_attachments m st0 = (st1, s1) →
            0 ≤ count st0 < Z.max limit 1 →
            0 ≤ count st1 ≤ Z.max limit 1 ∧ ∀ p',
              s1 = Suspend p' → in_relay p' = true ∧ count st1 < Z.max limit 1).
  { intros m st0 st1 s1. unfold relay_attachments.
    destruct (attachments m); [apply Hcount|].
    intros [= <- <-] ?. split; [lia|]. intros p' [= <-]. split; [done|lia]. }
  destruct p as [d| |m|m|m|m]; try done; simpl.
  - destruct (webhook_send (EvHeader m) r st) as [st1 s1] eqn:Hw.
    apply Hws in Hw as [Hc Hns]. destruct s1 as [q| |e]; simpl.
    + by destruct (Hns q).
    + intros Hr ?. eapply relay_content_count; [exact Hr|lia].
    + intros [= <- <-] ?. split; [lia|]. by intros p' [=].
  - destruct (webhook_send (EvBody m) r st) as [st1 s1] eqn:Hw.
    apply Hws in Hw as [Hc Hns]. destruct s1 as [q| |e]; simpl.
    + by destruct (Hns q).
    + intros Hr ?. eapply Hatt; [exact Hr|lia].
    + intros [= <- <-] ?. split; [lia|]. by intros p' [=].
  - destruct r as [|e].
    + intros Hr ?. eapply Hcount; [exact Hr|]. unfold count in *. simpl. lia.
    + destruct (is_forbidden_or_notfound e).
      * intros [= <- <-] ?. split; [lia|]. intros p' [= <-]. split; [done|lia].
      * destruct (is_http e).
        -- intros Hr ?. eapply Hcount; [exact Hr|]. unfold count in *. simpl. lia.
        -- intros [= <- <-] ?. split; [lia|]. by intros p' [=].
  - destruct (webhook_send (EvPlaceholder m) r st) as [st1 s1] eqn:Hw.
    apply Hws in Hw as [Hc Hns]. destruct s1 as [q| |e]; simpl.
    + by destruct (Hns q).
    + intros Hr ?. eapply Hcount; [exact Hr|lia].
    + intros [= <- <-] ?. split; [lia|]. by intros p' [=].
Qed.

Lemma finish_count st st' t :
  finish st = (st', t) → count st' = count st ∧ t = Finished.
Proof.
  unfold finish. simpl. destruct (message_queue st); by intros [= <- <-].
Qed.

Lemma fail_not_running e p : fail e ≠ Running p.
Proof. unfold fail. by destruct (decide (e = CancelledError)). Qed.

Lemma drain_count limit pending : ∀ st st' t,
  drain limit pending st = (st', t) →
  0 ≤ count st ≤ Z.max limit 1 →
  0 ≤ count st' ≤ Z.max limit 1 ∧
  (∀ p, t = Running p → in_relay p = true ∧ count st' < Z.max limit 1).
Proof.
  induction pending as [|m0 pending IH]; intros st st' t; simpl.
  - intros [Hc ->]%finish_count ?. rewrite Hc. by split.
  - destruct (popleft (consumption_queue st)) as [[m q]|].
    2:{ intros [Hc ->]%finish_count ?. rewrite Hc. by split. }
    destruct (relay_message limit m (set_consumption_queue q st))
      as [st1 s] eqn:Hrel.
    intros Hd Hc. apply relay_message_count in Hrel as [Hc1 Hs]; [|done].
    destruct s as [p| |e].
    + injection Hd as <- <-. split; [done|]. intros p' [= <-]. by apply Hs.
    + by eapply IH.
    + injection Hd as <- <-. split; [done|]. intros p' Hf.
      by apply fail_not_running in Hf.
Qed.

Lemma resume_task_count log_delay limit p r st st' t :
  resume_task log_delay limit p r st = (st', t) →
  0 ≤ count st ≤ Z.max limit 1 →
  (in_relay p = true → count st < Z.max limit 1) →
  0 ≤ count st' ≤ Z.max limit 1 ∧
  (∀ p', t = Running p' → in_relay p' = true → count st' < Z.max limit 1).
Proof.
  assert (Hbegin : ∀ st0, begin_drain limit st0 = (st', t) →
            0 ≤ count st0 ≤ Z.max limit 1 →
            0 ≤ count st' ≤ Z.max limit 1 ∧
            (∀ p', t = Running p' → in_relay p' = true →
                   count st' < Z.max limit 1)).
  { intros st0 Hd Hc. unfold begin_drain, drain_loop in Hd.
    apply drain_count in Hd as [? Hs].
    - split; [done|]. intros p' -> _. exact (proj2 (Hs _ eq_refl)).
    - by destruct (consumption_queue st0). }
  assert (Hrelay : in_relay p = true →
    match relay_resume p r st with
    | (st1, Complete) => drain_loop limit st1
    | (st1, Suspend p') => (st1, Running p')
    | (st1, Throw e) => (st1, fail e)
    end = (st', t) →
    0 ≤ count st ≤ Z.max limit 1 →
    (in_relay p = true → count st < Z.max limit 1) →
    0 ≤ count st' ≤ Z.max limit 1 ∧
    (∀ p', t = Running p' → in_relay p' = true → count st' < Z.max limit 1)).
  { intros Hp Hd Hc Hlt. specialize (Hlt Hp).
    destruct (relay_resume p r st) as [st1 s] eqn:Hr.
    apply (relay_resume_count limit) in Hr as [Hc1 Hs]; [|done|lia].
    destruct s as [p'| |e].
    - injection Hd as <- <-. split; [done|]. intros q [= <-] _.
      exact (proj2 (Hs _ eq_refl)).
    - unfold drain_loop in Hd. apply drain_count in Hd as [? Hs']; [|done].
      split; [done|]. intros q -> _. exact (proj2 (Hs' _ eq_refl)).
    - injection Hd as <- <-. split; [done|]. intros q Hf.
      by apply fail_not_running in Hf. }
  destruct p as [[|]| |m|m|m|m]; unfold resume_task; try (by apply Hrelay).
  - intros [= <- <-] Hc _. split; [done|]. by intros p' [= <-].
  - intros Hd Hc _. by apply (Hbegin st).
  - intros Hd Hc _. by apply (Hbegin st).
Qed.

Lemma handle_count_ok log_delay limit ev st :
  count_ok limit st → count_ok limit (handle log_delay limit ev st).
Proof.
  intros (Hs & Hc & Hrun).
  split; [by apply handle_single_flight|].
  destruct ev as [m|tid r|tid| |r]; simpl.
  - destruct (on_message_cases m st)
      as [[_ ->]|[(_ & _ & ->)|[(_ & _ & ->)|(_ & _ & _ & s0 & Hs0 & ->)]]];
      try done.
    unfold count. simpl.
    assert (message_history s0 = message_history st)
      as -> by by destruct Hs0 as [->|(? & ? & _ & _ & ->)].
    split; [done|]. intros j p Hj Hp.
    apply lookup_app_Some in Hj as [Hj|[_ Hj]]; [by eapply Hrun|].
    destruct (j - length (tasks st))%nat; simpl in Hj; [|done].
    injection Hj as <-. done.
  - unfold resume. destruct (tasks st !! tid) as [[p| | |]|] eqn:Hl; try done.
    destruct (resume_task log_delay limit p r st) as [st1 t] eqn:Hr.
    pose proof Hr as Hr'.
    apply resume_task_count in Hr' as [Hc1 Ht]; [|done|by eapply Hrun].
    apply resume_task_ending in Hr as (He & _).
    split; [done|]. change (count (set_tasks _ st1)) with (count st1).
    simpl. intros j q Hj Hq.
    destruct (decide (j = tid)) as [->|Hne].
    + assert (tid < length (tasks st1))%nat as Hlt.
      { apply lookup_lt_Some in Hj. by rewrite length_insert in Hj. }
      rewrite list_lookup_insert_eq in Hj by done. injection Hj as ->.
      by eapply Ht.
    + rewrite list_lookup_insert_ne in Hj by done.
      destruct Hs as [Hsf _].
      assert (Hold : ∀ q', tasks st !! j ≠ Some (Running q')).
      { intros q' Hq'. apply Hsf in Hq' as H1. apply Hsf in Hl as H2.
        congruence. }
      destruct He as [p' _ [Hts _] _| _ [Hts _] _ _| _ _ Hts _ _|e _ [Hts _] _];
        rewrite Hts in Hj; try by destruct (Hold q).
      apply lookup_app_Some in Hj as [Hj|[_ Hj]]; [by destruct (Hold q)|].
      destruct (j - length (tasks st))%nat; simpl in Hj; [|done].
      injection Hj as <-. done.
  - destruct (cancel_frame tid st) as (_ & _ & _ & Hh & _).
    unfold count. rewrite Hh. split; [done|]. intros j q Hj Hq.
    unfold cancel in Hj. destruct (tasks st !! tid) as [[p| | |]|] eqn:Hl;
      try by eapply Hrun.
    simpl in Hj. destruct (decide (j = tid)) as [->|Hne].
    + rewrite list_lookup_insert_eq in Hj by by eapply lookup_lt_Some. done.
    + rewrite list_lookup_insert_ne in Hj by done. by eapply Hrun.
  - destruct (cog_unload_frame st) as (_ & _ & _ & Hh & _).
    unfold count. rewrite Hh. split; [done|]. intros j q Hj Hq.
    unfold cog_unload in Hj. destruct (consume_task st) as [tid|];
      [|by eapply Hrun].
    destruct (done (task_of st tid)); [by eapply Hrun|]. simpl in Hj.
    unfold cancel in Hj. destruct (tasks st !! tid) as [[p| | |]|] eqn:Hl;
      try by eapply Hrun.
    simpl in Hj. destruct (decide (j = tid)) as [->|Hne].
    + rewrite list_lookup_insert_eq in Hj by by eapply lookup_lt_Some. done.
    + rewrite list_lookup_insert_ne in Hj by done. by eapply Hrun.
  - destruct (fetch_user_cache_queues r st) as (_ & Hts & _ & _ & Hh & _).
    unfold count in *. rewrite Hh, Hts. split; [done|]. exact Hrun.
Qed.

Lemma run_count_ok log_delay limit evs : ∀ st,
  count_ok limit st → count_ok limit (run log_delay limit evs st).
Proof.
  induction evs as [|ev evs IH]; intros st H; [done|].
  apply IH. by apply handle_count_ok.
Qed.

(** X4: in every state the cog can reach the header count is between 0
    and the limit (1 when the limit is smaller than 1), and strictly under
    it while a relay is suspended at one of its sends. *)
Theorem header_count_stays_within_limit
  (log_delay limit : Z) (evs : list event) :
  let st := run log_delay limit evs init in
  0 ≤ message_count (message_history st) ≤ Z.max limit 1 ∧
  (1 ≤ limit → message_count (message_history st) ≤ limit) ∧
  (∀ tid p, tasks st !! tid = Some (Running p) → in_relay p = true →
            message_count (message_history st) < Z.max limit 1).
Proof.
  intros st.
  assert (count_ok limit st) as (_ & Hc & Hrun).
  { apply run_count_ok. split; [apply init_single_flight|].
    unfold count. simpl. split; [lia|]. intros tid p Hl.
    by rewrite lookup_nil in Hl. }
  unfold count in *. split; [exact Hc|]. split; [lia|exact Hrun].
Qed.




(** X6: a task that comes out of its sleep (or was created without one)
    and finds the snapshot empty takes the whole live queue as its
    snapshot: the live queue is left empty, what it hands to
    [relay_message] comes off the front of the former live queue, the
    rest is the new snapshot, and no task is created. *)
Theorem waking_task_takes_the_live_queue
  (log_delay limit : Z) (tid : nat) (p : pc) (r : result) (st : State) :
  tasks st !! tid = Some (Running p) →
  p = PcSleep ∨ p = PcCreated false →
  consumption_queue st = [] →
  let st' := resume log_delay limit tid r st in
  message_queue st' = [] ∧
  relayed_from (flatten (message_queue st)) (flatten (consumption_queue st'))
    st st' ∧
  length (tasks st') = length (tasks st) ∧
  consume_task st' = consume_task st.
Proof.
  intros Hl Hp Hcq st'. subst st'. unfold resume. rewrite Hl.
  assert (resume_task log_delay limit p r st = begin_drain limit st) as ->.
  { by destruct Hp as [-> | ->]. }
  unfold begin_drain, drain_loop. rewrite Hcq.
  set (st1 := set_message_queue [] (set_consumption_queue (message_queue st) st)).
  destruct (drain limit (flatten (consumption_queue st1)) st1) as [st2 t] eqn:Hd.
  apply drain_spec in Hd as (Hmq & (sent & Hs1 & Hs2) & Hshape & _); [|done].
  simpl in *. split_and!.
  - done.
  - exists sent. by split.
  - rewrite length_insert.
    destruct Hshape as [(_ & _ & [(_ & [-> _])|([] & _)])|([-> _] & _)]; done.
  - destruct Hshape as [(_ & _ & [(_ & [_ ->])|([] & _)])|([_ ->] & _)]; done.
Qed.

Lemma waking_task_takes_the_live_queue_witness :
  let st := run 2 3 [Arrive A1; Resume 0 Returned; Arrive A2] (started watch5) in
  tasks st !! 0%nat = Some (Running PcSleep) ∧
  (PcSleep = PcSleep ∨ PcSleep = PcCreated false) ∧
  consumption_queue st = [] ∧
  let st' := resume 2 3 0 Returned st in
  message_queue st' = [] ∧
  relayed_from (flatten (message_queue st)) (flatten (consumption_queue st'))
    st st' ∧
  length (tasks st') = length (tasks st) ∧
  consume_task st' = consume_task st.
Proof.
  intros st.
  assert (H1 : tasks st !! 0%nat = Some (Running PcSleep)) by reflexivity.
  assert (H3 : consumption_queue st = []) by reflexivity.
  split; [exact H1|]. split; [by left|]. split; [exact H3|].
  exact (waking_task_takes_the_live_queue 2 3 0 PcSleep Returned st
           H1 (or_introl eq_refl) H3).
Defined.

Lemma fill_cache_app pre rest : ∀ st,
  Forall has_user pre →
  fill_cache (pre ++ rest) st = fill_cache rest (fst (fill_cache pre st)) ∧
  snd (fill_cache pre st) = Ok true.
Proof.
  induction pre as [|entry pre IH]; intros st Hall; simpl; [done|].
  apply Forall_cons in Hall as [[uid Hu] Hall]. rewrite Hu. by apply IH.
Qed.

Lemma fill_cache_other uid data : ∀ st,
  Forall (fun entry : Entry => entry !! "user" ≠ Some uid) data →
  watched_users (fst (fill_cache data st)) !! uid = watched_users st !! uid.
Proof.
  induction data as [|entry data IH]; intros st Hall; simpl; [done|].
  apply Forall_cons in Hall as [Hne Hall].
  destruct (entry !! "user") as [u|] eqn:Hu; [|done].
  rewrite IH by done. simpl. apply lookup_insert_ne. congruence.
Qed.

(** X7: when an entry of the API's answer has no ['user'] field,
    [fetch_user_cache] raises [KeyError] at that entry: the old cache is
    already gone, the cache holds the entries that came before the bad one
    (none, if it was the first) and the entries after it are ignored.  The
    queues are not touched. *)
Theorem fetch_user_cache_stops_at_malformed_entry
  (pre post : list Entry) (bad : Entry) (st : State) :
  Forall has_user pre → bad !! "user" = None →
  let res := fetch_user_cache (ApiData (pre ++ bad :: post)) st in
  snd res = Raise KeyError ∧
  watched_users (fst res)
  = watched_users (fst (fetch_user_cache (ApiData pre) st)) ∧
  (pre = [] → watched_users (fst res) = ∅) ∧
  message_queue (fst res) = message_queue st ∧
  consumption_queue (fst res) = consumption_queue st.
Proof.
  intros Hpre Hbad res. subst res.
  destruct (fetch_user_cache_queues (ApiData (pre ++ bad :: post)) st)
    as (_ & _ & Hmq & Hcq & _).
  unfold fetch_user_cache in *.
  destruct (fill_cache_app pre (bad :: post)
              (set_watched_users ∅ (emit EvApiGet st)) Hpre) as [Happ _].
  rewrite Happ in *. simpl in *. rewrite Hbad in *. simpl in *.
  split_and!; try done. by intros ->.
Qed.

Lemma fetch_user_cache_stops_at_malformed_entry_witness :
  Forall has_user [watch_a] ∧ no_user !! "user" = None ∧
  let res := fetch_user_cache (ApiData ([watch_a] ++ no_user :: [watch_b]))
               (started watch5) in
  snd res = Raise KeyError ∧
  watched_users (fst res)
  = watched_users (fst (fetch_user_cache (ApiData [watch_a]) (started watch5))) ∧
  ([watch_a] = [] → watched_users (fst res) = ∅) ∧
  message_queue (fst res) = message_queue (started watch5) ∧
  consumption_queue (fst res) = consumption_queue (started watch5).
Proof.
  assert (H1 : Forall has_user [watch_a]).
  { apply Forall_singleton. by eexists. }
  assert (H2 : no_user !! "user" = None) by reflexivity.
  split; [exact H1|]. split; [exact H2|].
  exact (fetch_user_cache_stops_at_malformed_entry [watch_a] [watch_b] no_user
           (started watch5) H1 H2).
Defined.

(** X8: when the API lists a user more than once, the cache keeps the last
    of that user's entries (without its ['user'] field). *)
Theorem fetch_user_cache_last_entry_wins
  (pre post : list Entry) (entry : Entry) (uid : JValue) (st : State) :
  Forall has_user (pre ++ entry :: post) →
  entry !! "user" = Some uid →
  Forall (fun later : Entry => later !! "user" ≠ Some uid) post →
  let res := fetch_user_cache (ApiData (pre ++ entry :: post)) st in
  snd res = Ok true ∧
  watched_users (fst res) !! uid = Some (delete "user" entry).
Proof.
  intros Hall Hu Hpost res. subst res. unfold fetch_user_cache.
  destruct (fill_cache_app (pre ++ entry :: post) []
              (set_watched_users ∅ (emit EvApiGet st)) Hall) as [_ Hok].
  split; [done|].
  apply Forall_app in Hall as [Hpre _].
  destruct (fill_cache_app pre (entry :: post)
              (set_watched_users ∅ (emit EvApiGet st)) Hpre) as [-> _].
  simpl. rewrite Hu. rewrite fill_cache_other by done. simpl.
  apply lookup_insert_eq.
Qed.

Lemma fetch_user_cache_last_entry_wins_witness :
  Forall has_user ([watch_a] ++ watch_b :: []) ∧
  watch_b !! "user" = Some (JInt 5) ∧
  Forall (fun later : Entry => later !! "user" ≠ Some (JInt 5)) [] ∧
  let res := fetch_user_cache (ApiData ([watch_a] ++ watch_b :: [])) init in
  snd res = Ok true ∧
  watched_users (fst res) !! JInt 5 = Some (delete "user" watch_b).
Proof.
  assert (H1 : Forall has_user ([watch_a] ++ watch_b :: [])).
  { repeat constructor; by eexists. }
  assert (H2 : watch_b !! "user" = Some (JInt 5)) by reflexivity.
  assert (H3 : Forall (fun later : Entry => later !! "user" ≠ Some (JInt 5)) [])
    by constructor.
  split; [exact H1|]. split; [exact H2|]. split; [exact H3|].
  exact (fetch_user_cache_last_entry_wins [watch_a] [] watch_b (JInt 5) init
           H1 H2 H3).
Defined.

(** X9: [relay_message] for a message whose author is not in the cache.
    If a header is due, [send_header] raises [KeyError], nothing is
    delivered, the tracker has already been moved to the author and
    channel with count 0, and the author is now in the cache with an empty
    entry (the cache is a [defaultdict]), so [on_message] accepts that
    author's messages again.  If no header is due the cache is not looked
    at and the message is relayed.  The state is reachable: a message is
    queued, the cache is refreshed without its author, the consume task
    runs and fails; the author's next message in that channel is then
    relayed without a header. *)
Theorem relaying_for_a_user_missing_from_the_cache
  (limit : Z) (m : Msg) (st : State) :
  watched_users st !! JInt (author_id m) = None →
  let res := relay_message limit m st in
  (needs_header limit m (message_history st) = true →
   snd res = Throw KeyError ∧
   watched_users (fst res) = <[JInt (author_id m) := ∅]> (watched_users st) ∧
   watched m (fst res) = true ∧
   message_history (fst res)
   = {| last_author := Some (author_id m);
        last_channel := Some (channel_id m); message_count := 0 |} ∧
   delivered (fst res) = delivered st) ∧
  (needs_header limit m (message_history st) = false →
   watched_users (fst res) = watched_users st ∧
   (∀ e, snd res ≠ Throw e)) ∧
  (tasks dropped_from_cache = [Failed KeyError] ∧
   watched_users dropped_from_cache = {[ JInt 5 := ∅ ]} ∧
   relayed dropped_from_cache = [A1] ∧ delivered dropped_from_cache = [] ∧
   let st2 := run 2 3 [Arrive A2; Resume 1 Returned; Resume 1 Returned;
                       Resume 2 Returned; Resume 2 Returned]
                dropped_from_cache in
   tasks st2 = [Failed KeyError; Finished; Finished] ∧
   relayed st2 = [A1; A2] ∧ delivered st2 = [EvBody A2]).
Proof.
  intros Hnone res. subst res. unfold relay_message.
  change (message_history (emit (EvRelay m) st)) with (message_history st).
  split; [|split].
  - intros ->. unfold send_header. simpl. rewrite Hnone. simpl.
    rewrite lookup_empty. simpl.
    split; [reflexivity|]. split; [reflexivity|].
    split; [|split; [reflexivity|]].
    + unfold watched. simpl. apply bool_decide_eq_true.
      rewrite lookup_insert_eq. by eexists.
    + unfold delivered. simpl. rewrite List.filter_app. simpl.
      by rewrite app_nil_r.
  - intros ->.
    destruct (relay_content m (emit (EvRelay m) st)) as [st' s] eqn:Hr.
    apply relay_content_spec in Hr as (_ & Hwu & _ & Hs). simpl.
    split; [done|]. intros e ->. by destruct Hs as [|[|]].
  - vm_compute. repeat (split; [reflexivity|]). reflexivity.
Qed.

Lemma relaying_for_a_user_missing_from_the_cache_witness :
  watched_users init !! JInt (author_id A1) = None ∧
  (needs_header 3 A1 (message_history init) = true →
   snd (relay_message 3 A1 init) = Throw KeyError ∧
   watched_users (fst (relay_message 3 A1 init))
   = <[JInt (author_id A1) := ∅]> (watched_users init) ∧
   watched A1 (fst (relay_message 3 A1 init)) = true ∧
   message_history (fst (relay_message 3 A1 init))
   = {| last_author := Some (author_id A1);
        last_channel := Some (channel_id A1); message_count := 0 |} ∧
   delivered (fst (relay_message 3 A1 init)) = delivered init).
Proof.
  assert (H : watched_users init !! JInt (author_id A1) = None) by reflexivity.
  split; [exact H|].
  exact (proj1 (relaying_for_a_user_missing_from_the_cache 3 A1 init H)).
Defined.

Lemma resolve_channel_unreported env :
  let st1 := resolve_channel env 5 1 init in
  untouched init st1 ∧
  Forall (fun ev => unreported ev ∧ ev ≠ EvApiGet) (trace st1).
Proof.
  intros st1.
  destruct (resolve_channel_spec env 5 1 init)
    as (Hun & k & Hk & _ & _ & _ & Htr); [lia|done|].
  fold st1 in Hun, Htr. split; [done|]. rewrite Htr. simpl.
  apply Forall_app. split.
  - apply Forall_forall. intros ev Hev.
    apply attempts_only in Hev as [[i ->]| ->]; by unfold unreported.
  - destruct (channel st1); repeat constructor; done.
Qed.

(** X10: exceptions that [start_watchchannel] does not catch.  An
    exception of [get_webhook_info] other than a discord HTTP error, and
    an exception of the API other than [ClientResponseError], escape
    start-up.  Whenever start-up raises, the cog stays loaded and nothing
    was sent to the mod log; when it returns with the cog still loaded,
    both the channel and the webhook are set. *)
Theorem start_watchchannel_uncaught_exceptions (env : StartEnv) :
  let res := start_watchchannel env init in
  let st := fst res in
  (∀ e, get_webhook_info env = inr e → is_http e = false →
     snd res = Raise e ∧ watched_users st = ∅ ∧ webhook st = None ∧
     EvApiGet ∉ trace st) ∧
  (∀ w e, is_Some (channel st) → get_webhook_info env = inl w →
     api_get env = ApiRaised e → e ≠ ClientResponseError →
     snd res = Raise e ∧ watched_users st = ∅ ∧ webhook st = Some w) ∧
  (∀ e, snd res = Raise e →
     loaded st = true ∧ Forall unreported (trace st)) ∧
  (snd res = Ok tt → loaded st = true →
     is_Some (channel st) ∧ is_Some (webhook st)).
Proof.
  intros res st. subst st res.
  destruct (resolve_channel_unreported env) as [Hun Hq].
  unfold start_watchchannel. change (retries init) with 5%nat.
  set (st1 := resolve_channel env 5 1 init) in *.
  destruct Hun as (Hct & Hts & Hwu & Hmq & Hcq & Hmh & Hre & Hrd & Hld & Hwh).
  simpl in Hwu, Hld, Hwh.
  assert (Hq1 : Forall unreported (trace st1)).
  { eapply Forall_impl; [exact Hq|]. by intros ev [? _]. }
  assert (Hq2 : EvApiGet ∉ trace st1).
  { intros Hin. rewrite Forall_forall in Hq. by destruct (Hq _ Hin). }
  unfold resolve_webhook.
  destruct (get_webhook_info env) as [w|e0] eqn:Hw.
  - cbn [fst snd channel webhook set_webhook emit].
    destruct (channel st1) as [c|] eqn:Hc1.
    + destruct (fetch_user_cache (api_get env)
                  (set_webhook (Some w) (emit EvGetWebhook st1)))
        as [st3 out] eqn:Hf.
      pose proof Hf as Hf'.
      apply fetch_user_cache_frame in Hf' as (Hc3 & Hw3 & Hl3 & logged & Ht3 & Hlog).
      simpl in Hc3, Hw3, Hl3, Ht3.
      assert (Hq3 : Forall unreported (trace st3)).
      { rewrite Ht3. rewrite Forall_app. split.
        - apply Forall_app. split; [done|]. by repeat constructor.
        - apply Forall_cons. split; [done|].
          destruct Hlog as [[-> _]|(-> & _)]; by repeat constructor. }
      split_and!.
      * intros e [=].
      * intros w' e _ [= <-] Ha Hne. rewrite Ha in Hf.
        unfold fetch_user_cache in Hf. rewrite decide_False in Hf by done.
        injection Hf as <- <-. simpl. by rewrite Hwu.
      * intros e. destruct out as [[|]|e']; simpl; try done.
        intros [= <-]. split; [congruence|done].
      * intros _ _. destruct out as [[|]|e']; simpl;
          rewrite ?Hc3, ?Hw3, ?Hc1; split; by eexists.
    + simpl. rewrite Hc1. simpl. by split_and!.
  - destruct (is_http e0) eqn:He.
    + cbn [fst snd channel webhook emit]. rewrite Hwh.
      assert (∀ (A : Type) (a : A) (o : option Z),
                match o with Some _ => a | None => a end = a) as Hm.
      { by intros ? ? []. }
      rewrite Hm. simpl. split_and!; try done.
      intros e [= <-]. congruence.
    + simpl. split_and!; try done.
      * intros e [= <-] _. split_and!; try done.
        intros [Hin|Hin%list_elem_of_singleton]%elem_of_app; done.
      * intros e [= <-]. split; [congruence|].
        apply Forall_app. split; [done|]. by repeat constructor.
Qed.











Section Burst.
Variable log_delay : Z.
Variable limit : Z.

End Burst.



Example burst_order :
  grouped [A1; D1; A2] = [A1; A2; D1].
Proof. vm_compute. reflexivity. Qed.

Lemma chans_popleft_wf u chs m chs' :
  chans_wf u chs → chans_popleft chs = Some (m, chs') → chans_wf u chs'.
Proof.
  unfold chans_wf. revert m chs'.
  induction chs as [|[c dq] chs IH]; simpl; intros m chs' [Hnd Hk]; [done|].
  apply NoDup_cons in Hnd as [Hc Hnd]. apply Forall_cons in Hk as [Hdq Hk].
  destruct dq as [|m0 dq].
  - destruct (chans_popleft chs) as [[m1 chs1]|] eqn:Hp; [|done].
    intros [= <- <-]. destruct (IH m1 chs1) as [Hnd1 Hk1]; [done|done|].
    assert (OD.keys chs1 = OD.keys chs) as Hkeys.
    { clear -Hp. revert m1 chs1 Hp.
      induction chs as [|[c' d'] chs IH]; simpl; intros m1 chs1; [done|].
      destruct d' as [|x d'].
      - destruct (chans_popleft chs) as [[m2 chs2]|]; [|done].
        intros [= <- <-]. simpl. f_equal. by eapply IH.
      - by intros [= <- <-]. }
    split.
    + simpl. apply NoDup_cons. by rewrite Hkeys.
    + by apply Forall_cons.
  - intros [= <- <-]. split.
    + simpl. by apply NoDup_cons.
    + apply Forall_cons. split; [|done]. simpl in *.
      by apply Forall_cons in Hdq as [_ ?].
Qed.

Lemma popleft_keys q m q' :
  popleft q = Some (m, q') → OD.keys q' = OD.keys q.
Proof.
  revert m q'. induction q as [|[u chs] q IH]; simpl; intros m q'; [done|].
  destruct (chans_popleft chs) as [[m1 chs1]|].
  - by intros [= <- <-].
  - destruct (popleft q) as [[m2 q2]|]; [|done].
    intros [= <- <-]. simpl. f_equal. by eapply IH.
Qed.

Lemma popleft_wf q m q' :
  wf_queues q → popleft q = Some (m, q') → wf_queues q'.
Proof.
  unfold wf_queues. intros [Hnd Hk] Hp. split.
  { by rewrite (popleft_keys q m q'). }
  clear Hnd. revert m q' Hp.
  induction q as [|[u chs] q IH]; simpl; intros m q' Hp; [done|].
  apply Forall_cons in Hk as [Hchs Hk].
  destruct (chans_popleft chs) as [[m1 chs1]|] eqn:Hc.
  - injection Hp as <- <-. apply Forall_cons. split; [|done].
    simpl in *. by eapply chans_popleft_wf.
  - destruct (popleft q) as [[m2 q2]|] eqn:Hq; [|done].
    injection Hp as <- <-. apply Forall_cons. split; [done|]. by eapply IH.
Qed.

Lemma wf_queues_nil : wf_queues [].
Proof. split; [apply NoDup_nil_2|done]. Qed.

Lemma drain_wf limit pending : ∀ st st' t,
  drain limit pending st = (st', t) →
  wf_queues (consumption_queue st) → wf_queues (consumption_queue st').
Proof.
  induction pending as [|m0 pending IH]; intros st st' t; simpl.
  - intros (_ & -> & _)%finish_spec _. apply wf_queues_nil.
  - destruct (popleft (consumption_queue st)) as [[m q]|] eqn:Hp.
    2:{ intros (_ & -> & _)%finish_spec _. apply wf_queues_nil. }
    destruct (relay_message limit m (set_consumption_queue q st))
      as [st1 s] eqn:Hrel.
    apply relay_message_spec in Hrel as ((_ & _ & _ & Hcq & _) & _).
    simpl in Hcq. intros Hd Hwf.
    assert (wf_queues (consumption_queue st1)) as Hwf1.
    { rewrite Hcq. by eapply popleft_wf. }
    destruct s as [p| |e].
    + by injection Hd as <- <-.
    + by eapply IH.
    + by injection Hd as <- <-.
Qed.

Lemma resume_task_wf log_delay limit p r st st' t :
  resume_task log_delay limit p r st = (st', t) →
  queues_wf st → queues_wf st'.
Proof.
  intros Hr [Hmq Hcq].
  assert (Hbegin : begin_drain limit st = (st', t) → queues_wf st').
  { unfold begin_drain, drain_loop. intros Hd.
    pose proof Hd as Hd'. apply drain_spec in Hd' as (Hm & _); [|done].
    apply drain_wf in Hd.
    - split; [|done]. rewrite Hm.
      destruct (consumption_queue st); [apply wf_queues_nil|done].
    - destruct (consumption_queue st) eqn:E; simpl; [exact Hmq|].
      by rewrite E. }
  assert (Hrelay : in_relay p = true →
    match relay_resume p r st with
    | (st1, Complete) => drain_loop limit st1
    | (st1, Suspend p') => (st1, Running p')
    | (st1, Throw e) => (st1, fail e)
    end = (st', t) → queues_wf st').
  { intros Hp. destruct (relay_resume p r st) as [st1 s] eqn:Hrr.
    apply relay_resume_spec in Hrr as ((_ & _ & Hm & Hc & _) & _).
    assert (queues_wf st1) as [Hm1 Hc1] by (split; congruence).
    destruct s as [p'| |e]; [by intros [= <- <-]| |by intros [= <- <-]].
    unfold drain_loop. intros Hd. pose proof Hd as Hd'.
    apply drain_spec in Hd' as (Hm' & _); [|done].
    apply drain_wf in Hd; [|done]. split; [congruence|done]. }
  destruct p as [[|]| |m|m|m|m]; unfold resume_task in Hr;
    try (by apply Hrelay); try (by apply Hbegin).
  by injection Hr as <- <-.
Qed.

Lemma handle_wf log_delay limit ev st :
  queues_wf st → queues_wf (handle log_delay limit ev st).
Proof.
  intros [Hmq Hcq]. destruct ev as [m|tid r|tid| |r]; simpl.
  - destruct (on_message_cases m st)
      as [[_ ->]|[(_ & _ & ->)|[(_ & _ & ->)|(_ & _ & _ & s0 & Hs0 & ->)]]];
      try done.
    + split; simpl; [by apply queue_append_wf|done].
    + split; simpl; [by apply queue_append_wf|].
      by destruct Hs0 as [->|(? & ? & _ & _ & ->)].
  - unfold resume. destruct (tasks st !! tid) as [[p| | |]|]; try done.
    destruct (resume_task log_delay limit p r st) as [st1 t] eqn:Hr.
    by apply resume_task_wf in Hr.
  - destruct (cancel_frame tid st) as (_ & Hm & Hc & _).
    split; congruence.
  - destruct (cog_unload_frame st) as (_ & Hm & Hc & _).
    split; congruence.
  - destruct (fetch_user_cache_queues r st) as (_ & _ & Hm & Hc & _).
    split; congruence.
Qed.

Lemma run_wf log_delay limit evs : ∀ st,
  queues_wf st → queues_wf (run log_delay limit evs st).
Proof.
  induction evs as [|ev evs IH]; intros st H; [done|].
  apply IH. by apply handle_wf.
Qed.

Lemma not_by_app u l1 l2 : not_by u (l1 ++ l2) = not_by u l1 ++ not_by u l2.
Proof. apply List.filter_app. Qed.

Lemma pop_flatten u q :
  wf_queues q → flatten (OD.pop u q) = not_by u (flatten q).
Proof.
  unfold wf_queues, flatten. intros [_ Hk].
  induction q as [|[k chs] q IH]; simpl; [done|].
  apply Forall_cons in Hk as [[_ Hchs] Hk]. simpl in Hchs.
  rewrite not_by_app.
  assert (Hall : Forall (fun m => author_id m = k) (chans_flatten chs)).
  { unfold chans_flatten, OD.values. apply Forall_concat, Forall_fmap.
    eapply Forall_impl; [exact Hchs|]. intros [c dq] Hdq. simpl in *.
    eapply Forall_impl; [exact Hdq|]. by intros m [? _]. }
  destruct (decide (k = u)) as [->|Hne].
  - rewrite IH by done.
    replace (not_by u (chans_flatten chs)) with (@nil Msg); [done|].
    symmetry. unfold not_by. induction Hall as [|m l Hm _ IHl]; simpl; [done|].
    by rewrite Hm, Z.eqb_refl.
  - simpl. rewrite IH by done. f_equal.
    unfold not_by. induction Hall as [|m l Hm _ IHl]; simpl; [done|].
    rewrite Hm. apply Z.eqb_neq in Hne. rewrite Hne. simpl. by f_equal.
Qed.

(** X12: in any state the cog can reach, [_remove_user] takes out of the
    live queue and out of the snapshot exactly the messages written by
    that user, the other messages keeping their order; nothing is relayed
    by it, and a later message of that user is ignored by [on_message]. *)
Theorem remove_user_drops_their_pending_messages
  (log_delay limit : Z) (evs : list event) (u : Z) :
  let st := run log_delay limit evs init in
  let st' := _remove_user u st in
  flatten (message_queue st') = not_by u (flatten (message_queue st)) ∧
  flatten (consumption_queue st')
  = not_by u (flatten (consumption_queue st)) ∧
  pending st' = not_by u (pending st) ∧
  relayed st' = relayed st ∧
  ∀ m, author_id m = u → on_message m st' = (st', Ok tt).
Proof.
  intros st st'.
  assert (queues_wf st) as [Hmq Hcq].
  { apply run_wf. split; apply wf_queues_nil. }
  assert (H1 : flatten (message_queue st') = not_by u (flatten (message_queue st)))
    by by apply pop_flatten.
  assert (H2 : flatten (consumption_queue st')
               = not_by u (flatten (consumption_queue st)))
    by by apply pop_flatten.
  split_and!; [done|done| |done|].
  - unfold pending. by rewrite H1, H2, not_by_app.
  - intros m <-. unfold on_message, watched. subst st'. simpl.
    rewrite lookup_delete_eq. rewrite bool_decide_eq_false_2; [done|].
    by intros [? ?].
Qed.

Section ListingFacts.
Variable _get_time_delta : JValue → string + exn.

Lemma watched_lines_ok items ls :
  watched_lines _get_time_delta items = Ok ls →
  line_users ls = items.*1 ∧ LineNothing ∉ ls.
Proof.
  revert ls. induction items as [|[uid e] items IH]; simpl; intros ls.
  - intros [= <-]. split; [done|apply not_elem_of_nil].
  - destruct (e !! "inserted_at") as [v|]; [|done].
    destruct (_get_time_delta v) as [s|x]; [|done].
    destruct (watched_lines _get_time_delta items) as [ls'|x]; [|done].
    intros [= <-]. destruct (IH ls' eq_refl) as (Hu & Hn). simpl.
    split; [by rewrite Hu|].
    intros [?|?]%elem_of_cons; done.
Qed.

Lemma watched_lines_raises items uid e :
  (uid, e) ∈ items → e !! "inserted_at" = None →
  ∃ x, watched_lines _get_time_delta items = Raise x.
Proof.
  intros Hin Hno. induction items as [|[uid' e'] items IH]; simpl.
  - by apply elem_of_nil in Hin.
  - apply elem_of_cons in Hin as [[= <- <-]|Hin].
    + rewrite Hno. by eexists.
    + destruct (IH Hin) as [x Hx]. rewrite Hx.
      destruct (e' !! "inserted_at") as [v|]; [|by eexists].
      destruct (_get_time_delta v) as [s|y]; by eexists.
Qed.

Lemma build_listing_spec update_cache st :
  (∀ l, build_listing _get_time_delta update_cache st = Ok l →
     listing_updated l = update_cache ∧
     (watched_users st = ∅ → listing_lines l = [LineNothing]) ∧
     (watched_users st ≠ ∅ →
      NoDup (line_users (listing_lines l)) ∧
      (∀ uid, uid ∈ line_users (listing_lines l)
              ↔ is_Some (watched_users st !! uid)) ∧
      LineNothing ∉ listing_lines l)) ∧
  (∀ uid e, watched_users st !! uid = Some e → e !! "inserted_at" = None →
     ∃ x, build_listing _get_time_delta update_cache st = Raise x).
Proof.
  unfold build_listing. split.
  - intros l.
    destruct (watched_lines _get_time_delta (map_to_list (watched_users st)))
      as [ls|x] eqn:Hl; [|done].
    intros [= <-]. simpl. apply watched_lines_ok in Hl as [Hu Hn].
    split_and!; [done| |].
    + intros He. rewrite He, map_to_list_empty in Hu.
      destruct ls as [|l ls]; [done|].
      destruct l as [u s|]; [done|].
      exfalso. apply Hn. by left.
    + intros Hne.
      assert (ls ≠ []) as Hls.
      { intros ->. simpl in Hu. symmetry in Hu.
        apply fmap_nil_inv, map_to_list_empty_iff in Hu. done. }
      destruct ls as [|l0 ls]; [done|].
      split_and!; [| |done].
      * rewrite Hu. apply NoDup_fst_map_to_list.
      * intros uid. rewrite Hu, list_elem_of_fmap. split.
        -- intros ([u e] & -> & Hin). apply elem_of_map_to_list in Hin.
           by eexists.
        -- intros [e He]. exists (uid, e). split; [done|].
           by apply elem_of_map_to_list.
  - intros uid e He Hno.
    destruct (watched_lines_raises (map_to_list (watched_users st)) uid e)
      as [x ->]; [by apply elem_of_map_to_list|done|by eexists].
Qed.

(** X13: [list_watched_users].  Without [update_cache] the API is not
    asked and the title says 'cached'.  With it, when the API fails with
    [ClientResponseError] the notice is sent, the cache is as before and
    the listing is the one that would have been given without
    [update_cache]; when the refresh succeeds the title says 'updated' and
    the listing is built from the new cache.  Whenever a listing is built,
    an empty cache gives the single line "There's nothing here yet.";
    otherwise there is exactly one line per watched user and no other
    line.  If an entry of the cache has no ['inserted_at'] the call
    raises. *)
Theorem list_watched_users_serves_the_cache
  (update_cache : bool) (r : api_result) (st : State) :
  let res := list_watched_users _get_time_delta update_cache r st in
  let st1 := fst (fst res) in
  let notice := snd (fst res) in
  (update_cache = false →
   st1 = st ∧ notice = false ∧
   ∀ l, snd res = Ok l → listing_updated l = false) ∧
  (update_cache = true → r = ApiRaised ClientResponseError →
   notice = true ∧ watched_users st1 = watched_users st ∧
   snd res = snd (list_watched_users _get_time_delta false r st)) ∧
  (update_cache = true → snd (fetch_user_cache r st) = Ok true →
   notice = false ∧ st1 = fst (fetch_user_cache r st) ∧
   ∀ l, snd res = Ok l → listing_updated l = true) ∧
  (∀ l, snd res = Ok l →
     (watched_users st1 = ∅ → listing_lines l = [LineNothing]) ∧
     (watched_users st1 ≠ ∅ →
      NoDup (line_users (listing_lines l)) ∧
      (∀ uid, uid ∈ line_users (listing_lines l)
              ↔ is_Some (watched_users st1 !! uid)) ∧
      LineNothing ∉ listing_lines l)) ∧
  (∀ uid e, watched_users st1 !! uid = Some e → e !! "inserted_at" = None →
     ∃ x, snd res = Raise x).
Proof.
  intros res st1 notice. subst res st1 notice. unfold list_watched_users.
  destruct update_cache.
  - destruct (fetch_user_cache r st) as [s1 fetched] eqn:Hf.
    destruct fetched as [[|]|x]; simpl.
    + destruct (build_listing_spec true s1) as [Hok Hraise].
      split_and!; [done| |  | |done].
      * intros _ ->. unfold fetch_user_cache in Hf.
        rewrite decide_True in Hf by done. by injection Hf as <-.
      * intros _ _. split_and!; [done|done|]. intros l Hl. by apply Hok.
      * intros l Hl. by apply Hok.
    + destruct (build_listing_spec false s1) as [Hok Hraise].
      split_and!; [done| | done | |done].
      * intros _ ->. unfold fetch_user_cache in Hf.
        rewrite decide_True in Hf by done. injection Hf as <-.
        split_and!; [done|done|]. unfold build_listing. done.
      * intros l Hl. by apply Hok.
    + split_and!; [done| |done|done|by eexists].
      intros _ ->. unfold fetch_user_cache in Hf.
      rewrite decide_True in Hf by done. done.
  - simpl. destruct (build_listing_spec false st) as [Hok Hraise].
    split_and!; [|done|done| |done].
    + intros _. split_and!; [done|done|]. intros l Hl. by apply Hok.
    + intros l Hl. by apply Hok.
Qed.
End ListingFacts.

(** After [send_header] has bound a user to an empty entry, the overview
    cannot be built any more. *)
Example listing_after_dropped_user :
  snd (list_watched_users an_hour false (ApiData []) dropped_from_cache)
  = Raise KeyError ∧
  snd (list_watched_users an_hour false (ApiData []) (started watch5))
  = Ok {| listing_updated := false;
          listing_lines := [LineUser (JInt 5) "1 hour"] |} ∧
  list_watched_users an_hour true (ApiRaised ClientResponseError) init
  = (emit (EvLogFetchFailed ClientResponseError) (emit EvApiGet init), true,
     Ok {| listing_updated := false; listing_lines := [LineNothing] |}).
Proof. vm_compute. repeat (split; [reflexivity|]). reflexivity. Qed.

Lemma of_pair_all a c dq :
  Forall (fun m => author_id m = a ∧ channel_id m = c) dq → of_pair a c dq = dq.
Proof.
  induction 1 as [|m l [Ha Hc] _ IH]; simpl; [done|].
  unfold in_pair. rewrite Ha, Hc, !Z.eqb_refl. simpl. by f_equal.
Qed.

Lemma of_pair_foreign a c u k dq :
  Forall (fun m => author_id m = u ∧ channel_id m = k) dq →
  (a, c) ≠ (u, k) → of_pair a c dq = [].
Proof.
  intros Hall Hne. apply of_pair_none. eapply Forall_impl; [exact Hall|].
  intros m [Ha Hc]. simpl. destruct (in_pair a c m) eqn:Hp; [|done].
  apply in_pair_true in Hp as [? ?]. destruct Hne. congruence.
Qed.

Lemma chans_wf_lookup u c chs :
  chans_wf u chs →
  default [] (OD.get c chs) = of_pair u c (chans_flatten chs).
Proof.
  unfold chans_wf, chans_flatten, OD.values.
  induction chs as [|[k dq] chs IH]; simpl; intros [Hnd Hk]; [done|].
  apply NoDup_cons in Hnd as [Hnotin Hnd].
  apply Forall_cons in Hk as [Hdq Hk]. simpl in Hdq.
  rewrite of_pair_app. destruct (decide (k = c)) as [->|Hne]; simpl.
  - rewrite of_pair_all by done.
    replace (of_pair u c (concat (map snd chs))) with (@nil Msg);
      [by rewrite app_nil_r|].
    symmetry. apply of_pair_none, Forall_concat, Forall_fmap.
    apply Forall_forall. intros [k' d'] Hin. simpl.
    rewrite Forall_forall in Hk. specialize (Hk _ Hin). simpl in Hk.
    eapply Forall_impl; [exact Hk|]. intros m [Ha Hc]. simpl.
    destruct (in_pair u c m) eqn:Hp; [|done].
    apply in_pair_true in Hp as [_ Hp]. exfalso. apply Hnotin.
    unfold OD.keys. apply list_elem_of_fmap. exists (k', d').
    split; [simpl; congruence|done].
  - rewrite (of_pair_foreign u c u k) by (done || congruence).
    simpl. by apply IH.
Qed.

Lemma chans_wf_foreign a c u chs :
  chans_wf u chs → a ≠ u → of_pair a c (chans_flatten chs) = [].
Proof.
  unfold chans_wf, chans_flatten, OD.values. intros [_ Hk] Hne.
  apply of_pair_none, Forall_concat, Forall_fmap.
  eapply Forall_impl; [exact Hk|]. intros [k dq] Hdq. simpl in *.
  eapply Forall_impl; [exact Hdq|]. intros m [Ha _]. simpl.
  destruct (in_pair a c m) eqn:Hp; [|done].
  apply in_pair_true in Hp as [? _]. congruence.
Qed.

Lemma wf_queue_of a c q :
  wf_queues q → queue_of a c q = of_pair a c (flatten q).
Proof.
  unfold wf_queues, queue_of, flatten, OD.values.
  induction q as [|[u chs] q IH]; simpl; intros [Hnd Hk]; [done|].
  apply NoDup_cons in Hnd as [Hnotin Hnd].
  apply Forall_cons in Hk as [Hchs Hk]. simpl in Hchs.
  rewrite of_pair_app. destruct (decide (u = a)) as [->|Hne]; simpl.
  - rewrite <- chans_wf_lookup by done.
    replace (of_pair a c (concat (map chans_flatten (map snd q))))
      with (@nil Msg); [by rewrite app_nil_r|].
    symmetry. apply of_pair_none, Forall_concat, Forall_fmap, Forall_fmap.
    apply Forall_forall. intros [u' chs'] Hin. simpl.
    rewrite Forall_forall in Hk. specialize (Hk _ Hin). simpl in Hk.
    assert (a ≠ u') as Hne.
    { intros ->. apply Hnotin. unfold OD.keys.
      apply list_elem_of_fmap. by exists (u', chs'). }
    pose proof (chans_wf_foreign a c u' chs' Hk Hne) as Hno.
    apply Forall_forall. intros m Hm.
    destruct (in_pair a c m) eqn:Hp; [|done].
    assert (m ∈ of_pair a c (chans_flatten chs')) as Hm'.
    { apply list_elem_of_In, List.filter_In. split; [by apply list_elem_of_In|done]. }
    rewrite Hno in Hm'. by apply elem_of_nil in Hm'.
  - rewrite (chans_wf_foreign a c u chs) by (done || congruence).
    simpl. by apply IH.
Qed.

(** X14: in any state the cog can reach, the deque kept under an author
    and a channel, in the live queue and in the snapshot, holds exactly the
    queued messages of that author in that channel, in their order. *)
Theorem deque_is_the_pending_messages_of_its_pair
  (log_delay limit : Z) (evs : list event) (a c : Z) :
  let st := run log_delay limit evs init in
  queue_of a c (message_queue st) = of_pair a c (flatten (message_queue st)) ∧
  queue_of a c (consumption_queue st)
  = of_pair a c (flatten (consumption_queue st)) ∧
  (∀ m, m ∈ queue_of a c (message_queue st) ∨
        m ∈ queue_of a c (consumption_queue st) →
        author_id m = a ∧ channel_id m = c ∧ m ∈ pending st).
Proof.
  intros st.
  assert (queues_wf st) as [Hmq Hcq].
  { apply run_wf. split; apply wf_queues_nil. }
  pose proof (wf_queue_of a c _ Hmq) as H1.
  pose proof (wf_queue_of a c _ Hcq) as H2.
  split_and!; [done|done|].
  intros m Hm. rewrite H1, H2 in Hm. unfold pending.
  rewrite elem_of_app.
  destruct Hm as [Hm|Hm];
    apply list_elem_of_In, List.filter_In in Hm as [Hin Hp];
    apply in_pair_true in Hp as [? ?]; apply list_elem_of_In in Hin;
    split_and!; auto.
Qed.

(** X15: [consume_messages] tests the snapshot dictionary, not its
    deques.  A snapshot that still has keys but no message left (a task
    ended while relaying the last one) is not replaced by the live queue:
    the next task relays nothing, clears the snapshot and finishes, and if
    the live queue is not empty it hands over to one more task, created
    without delay; the live queue itself is not touched. *)
Theorem emptied_snapshot_is_not_swapped
  (log_delay limit : Z) (tid : nat) (p : pc) (r : result) (st : State) :
  tasks st !! tid = Some (Running p) →
  p = PcSleep ∨ p = PcCreated false →
  consumption_queue st ≠ [] → flatten (consumption_queue st) = [] →
  let st' := resume log_delay limit tid r st in
  relayed st' = relayed st ∧ message_queue st' = message_queue st ∧
  consumption_queue st' = [] ∧ task_of st' tid = Finished ∧
  (message_queue st = [] →
   tasks st' = <[tid := Finished]> (tasks st) ∧
   consume_task st' = consume_task st) ∧
  (message_queue st ≠ [] →
   tasks st' = <[tid := Finished]> (tasks st ++ [Running (PcCreated false)]) ∧
   consume_task st' = Some (length (tasks st))).
Proof.
  intros Hl Hp Hne Hfl st'. subst st'. unfold resume. rewrite Hl.
  assert (Hlt : (tid < length (tasks st))%nat) by by eapply lookup_lt_Some.
  assert (resume_task log_delay limit p r st = finish st) as ->.
  { assert (resume_task log_delay limit p r st = begin_drain limit st) as ->
      by by destruct Hp as [-> | ->].
    unfold begin_drain, drain_loop.
    destruct (consumption_queue st) eqn:Hcq; [done|].
    by rewrite Hcq, Hfl. }
  unfold finish. simpl. destruct (message_queue st) as [|uq q] eqn:Hmq; simpl.
  - split_and!; try done.
    unfold task_of. simpl. by rewrite list_lookup_insert_eq.
  - split_and!; try done.
    + unfold relayed. simpl. rewrite omap_app. simpl. by rewrite app_nil_r.
    + unfold task_of. simpl. rewrite list_lookup_insert_eq; [done|].
      rewrite length_app. lia.
Qed.

Lemma emptied_snapshot_is_not_swapped_witness :
  tasks emptied_snapshot !! 1%nat = Some (Running PcSleep) ∧
  (PcSleep = PcSleep ∨ PcSleep = PcCreated false) ∧
  consumption_queue emptied_snapshot ≠ [] ∧
  flatten (consumption_queue emptied_snapshot) = [] ∧
  let st' := resume 2 3 1 Returned emptied_snapshot in
  relayed st' = relayed emptied_snapshot ∧
  message_queue st' = message_queue emptied_snapshot ∧
  consumption_queue st' = [] ∧ task_of st' 1 = Finished ∧
  (message_queue emptied_snapshot = [] →
   tasks st' = <[1%nat := Finished]> (tasks emptied_snapshot) ∧
   consume_task st' = consume_task emptied_snapshot) ∧
  (message_queue emptied_snapshot ≠ [] →
   tasks st' = <[1%nat := Finished]>
                 (tasks emptied_snapshot ++ [Running (PcCreated false)]) ∧
   consume_task st' = Some (length (tasks emptied_snapshot))).
Proof.
  assert (H1 : tasks emptied_snapshot !! 1%nat = Some (Running PcSleep))
    by (vm_compute; reflexivity).
  assert (H3 : consumption_queue emptied_snapshot ≠ [])
    by (vm_compute; discriminate).
  assert (H4 : flatten (consumption_queue emptied_snapshot) = [])
    by (vm_compute; reflexivity).
  split; [exact H1|]. split; [by left|]. split; [exact H3|]. split; [exact H4|].
  exact (emptied_snapshot_is_not_swapped 2 3 1 PcSleep Returned emptied_snapshot
           H1 (or_introl eq_refl) H3 H4).
Defined.



Lemma logged_emit ev st :
  logged_failures (emit ev st)
  = logged_failures st
    ++ match ev with EvLogTaskFailed e => [e] | _ => [] end.
Proof.
  unfold logged_failures. simpl. rewrite omap_app. simpl. by destruct ev.
Qed.

Ltac logged_same :=
  unfold logged_failures; simpl; rewrite ?omap_app; simpl;
  rewrite ?app_nil_r; done.

Lemma relay_content_logged m st st' s :
  relay_content m st = (st', s) → logged_failures st' = logged_failures st.
Proof.
  unfold relay_content, relay_attachments, relay_count.
  destruct (clean_content m), (attachments m); intros [= <- <-]; logged_same.
Qed.

Lemma relay_message_logged limit m st st' s :
  relay_message limit m st = (st', s) →
  logged_failures st' = logged_failures st.
Proof.
  unfold relay_message.
  destruct (needs_header limit m (message_history (emit (EvRelay m) st))).
  - unfold send_header. simpl.
    destruct (watched_users st !! JInt (author_id m)) as [e|]; simpl.
    + destruct (e !! "actor"), (e !! "inserted_at"), (e !! "reason");
        intros [= <- <-]; logged_same.
    + rewrite lookup_empty. simpl. intros [= <- <-]. logged_same.
  - intros H%relay_content_logged. rewrite H. logged_same.
Qed.

Lemma relay_resume_logged p r st st' s :
  relay_resume p r st = (st', s) → logged_failures st' = logged_failures st.
Proof.
  unfold relay_resume, webhook_send, and_then, relay_content,
    relay_attachments, relay_count.
  destruct p as [d| |m|m|m|m]; try (intros [= <- <-]; logged_same);
    destruct r as [|e];
    try destruct (is_http e); try destruct (is_forbidden_or_notfound e);
    try destruct (clean_content m); try destruct (attachments m);
    intros [= <- <-]; logged_same.
Qed.

Lemma finish_logged st st' t :
  finish st = (st', t) → logged_failures st' = logged_failures st.
Proof.
  unfold finish. simpl. destruct (message_queue st); intros [= <- <-];
    logged_same.
Qed.

Lemma drain_logged limit pending : ∀ st st' t,
  drain limit pending st = (st', t) → logged_failures st' = logged_failures st.
Proof.
  induction pending as [|m0 pending IH]; intros st st' t; simpl.
  - apply finish_logged.
  - destruct (popleft (consumption_queue st)) as [[m q]|];
      [|apply finish_logged].
    destruct (relay_message limit m (set_consumption_queue q st))
      as [st1 s] eqn:Hrel.
    apply relay_message_logged in Hrel.
    destruct s as [p| |e]; [intros [= <- <-]| |intros [= <- <-]]; try done.
    intros H%IH. by rewrite H.
Qed.

Lemma resume_task_logged log_delay limit p r st st' t :
  resume_task log_delay limit p r st = (st', t) →
  logged_failures st' = logged_failures st.
Proof.
  assert (Hbegin : begin_drain limit st = (st', t) →
            logged_failures st' = logged_failures st).
  { unfold begin_drain, drain_loop. intros H%drain_logged. rewrite H.
    by destruct (consumption_queue st). }
  assert (Hrelay :
    match relay_resume p r st with
    | (st1, Complete) => drain_loop limit st1
    | (st1, Suspend p') => (st1, Running p')
    | (st1, Throw e) => (st1, fail e)
    end = (st', t) → logged_failures st' = logged_failures st).
  { destruct (relay_resume p r st) as [st1 s] eqn:Hr.
    apply relay_resume_logged in Hr.
    destruct s as [p'| |e]; [intros [= <- <-]| |intros [= <- <-]]; try done.
    unfold drain_loop. intros H%drain_logged. by rewrite H. }
  destruct p as [[|]| |m|m|m|m]; unfold resume_task; try done.
  intros [= <- <-]. logged_same.
Qed.

Lemma failures_app l1 l2 : failures (l1 ++ l2) = failures l1 ++ failures l2.
Proof. apply omap_app. Qed.

Lemma take_all_but_last {A} (l : list A) x :
  take (length (l ++ [x]) - 1) (l ++ [x]) = l.
Proof.
  rewrite length_app. simpl.
  replace (length l + 1 - 1)%nat with (length l) by lia.
  by rewrite take_app_length.
Qed.

Lemma split_last {A} (l : list A) :
  l ≠ [] → ∃ l' x, l = l' ++ [x].
Proof.
  induction l as [|y l IH] using rev_ind; [done|]. intros _. by exists l, y.
Qed.

Lemma newest_snoc st ts t :
  tasks st = ts ++ [t] → consume_task st = Some (length ts) →
  newest_in_charge st.
Proof.
  intros Hts Hc. unfold newest_in_charge. rewrite Hts.
  destruct (ts ++ [t]) eqn:E; [by apply app_eq_nil in E as [_ ?]|].
  rewrite <- E, length_app. simpl. rewrite Hc. f_equal. lia.
Qed.

Lemma newest_last st tid :
  newest_in_charge st → consume_task st = Some tid →
  ∃ ts t, tasks st = ts ++ [t] ∧ tid = length ts.
Proof.
  unfold newest_in_charge. intros Hnew Hct.
  destruct (tasks st) as [|t0 ts0] eqn:E; [congruence|].
  destruct (split_last (t0 :: ts0)) as (ts & t & Ets); [done|].
  exists ts, t. split; [done|]. rewrite Ets, length_app in Hnew.
  simpl in Hnew. rewrite Hct in Hnew. injection Hnew as ->. lia.
Qed.

Lemma newest_running st tid p :
  newest_in_charge st → single_flight st →
  tasks st !! tid = Some (Running p) →
  ∃ ts, tasks st = ts ++ [Running p] ∧ tid = length ts ∧
        consume_task st = Some (length ts).
Proof.
  intros Hnew [Hsf _] Hl. apply Hsf in Hl as Hct.
  destruct (newest_last st tid Hnew Hct) as (ts & t & Ets & ->). exists ts.
  rewrite Ets in Hl. rewrite list_lookup_middle in Hl by done.
  injection Hl as ->. done.
Qed.

Lemma insert_last {A} (ts : list A) (t t' : A) :
  <[length ts := t']> (ts ++ [t]) = ts ++ [t'].
Proof. rewrite insert_app_r_alt, Nat.sub_diag by done. done. Qed.

Lemma insert_before_last {A} (ts : list A) (t t' x : A) :
  <[length ts := t']> ((ts ++ [t]) ++ [x]) = (ts ++ [t']) ++ [x].
Proof.
  rewrite <- !app_assoc. rewrite insert_app_r_alt, Nat.sub_diag by done. done.
Qed.

Lemma cancel_failures_logged tid st :
  failures_logged st → failures_logged (cancel tid st).
Proof.
  intros (Hnew & Hs & Hlog). unfold cancel.
  destruct (tasks st !! tid) as [[p| | |]|] eqn:Hl; try done.
  destruct (newest_running st tid p Hnew Hs Hl) as (ts & Ets & -> & Hct).
  split; [|split].
  - apply (newest_snoc _ ts Cancelled); simpl; [|done].
    by rewrite Ets, insert_last.
  - destruct Hs as [Hsf Hvalid]. split; simpl.
    + intros j q Hj. rewrite Ets, insert_last in Hj.
      apply lookup_app_Some in Hj as [Hj|[_ Hj]].
      * apply Hsf with q. rewrite Ets. by apply lookup_app_l_Some.
      * destruct (j - length ts)%nat; simpl in Hj; done.
    + intros j Hj. rewrite length_insert. auto.
  - unfold logged_failures in *. simpl. rewrite Hlog, Ets, insert_last.
    by rewrite !take_all_but_last.
Qed.

Lemma handle_failures_logged log_delay limit ev st :
  failures_logged st → failures_logged (handle log_delay limit ev st).
Proof.
  intros Hinv. pose proof Hinv as (Hnew & Hs & Hlog).
  destruct ev as [m|tid r|tid| |r]; simpl.
  - (* a message arrives *)
    split; [|split; [by apply (handle_single_flight log_delay limit (Arrive m))|]].
    + destruct (on_message_cases m st)
        as [[_ ->]|[(_ & _ & ->)|[(_ & _ & ->)|(_ & _ & _ & s0 & Hs0 & ->)]]];
        try done.
      by apply (newest_snoc _ (tasks st) (Running (PcCreated true))).
    + unfold on_message, consuming_messages.
      destruct (watched m st); [|done].
      destruct (consume_task st) as [tid|] eqn:Hct.
      * destruct (newest_last st tid Hnew Hct) as (ts & t & Ets & ->).
        assert (task_of st (length ts) = t) as ->.
        { unfold task_of. rewrite Ets. by rewrite list_lookup_middle. }
        rewrite Ets, take_all_but_last in Hlog.
        destruct t as [p| |e|]; simpl; try (by rewrite Ets, take_all_but_last).
        -- rewrite take_all_but_last, Ets, failures_app. simpl.
           rewrite app_nil_r, <- Hlog. logged_same.
        -- rewrite take_all_but_last, Ets, failures_app. simpl.
           rewrite <- Hlog. unfold logged_failures. simpl.
           rewrite !omap_app. simpl. by rewrite app_nil_r.
      * simpl. rewrite take_all_but_last.
        unfold newest_in_charge in Hnew.
        destruct (tasks st) as [|t0 ts0] eqn:E; [|congruence].
        simpl in *. rewrite <- Hlog. logged_same.
  - (* a consume task runs *)
    split; [|split; [by apply resume_single_flight|]];
      unfold resume; (destruct (tasks st !! tid) as [[p| | |]|] eqn:Hl; try done);
      destruct (newest_running st tid p Hnew Hs Hl) as (ts & Ets & -> & Hct);
      destruct (resume_task log_delay limit p r st) as [st1 t] eqn:Hr;
      pose proof Hr as Hr'; apply resume_task_logged in Hr';
      apply resume_task_ending in Hr as (He & _).
    + destruct He as [p' _ [Hts Hc] _| _ [Hts Hc] _ _| _ _ Hts Hc _|e _ [Hts Hc] _].
      * apply (newest_snoc _ ts t); simpl; [|congruence].
        by rewrite Hts, Ets, insert_last.
      * apply (newest_snoc _ ts t); simpl; [|congruence].
        by rewrite Hts, Ets, insert_last.
      * apply (newest_snoc _ (ts ++ [t]) (Running (PcCreated false))); simpl.
        -- by rewrite Hts, Ets, insert_before_last.
        -- rewrite Hc, Ets, !length_app. done.
      * apply (newest_snoc _ ts t); simpl; [|congruence].
        by rewrite Hts, Ets, insert_last.
    + change (logged_failures (set_tasks (<[length ts:=t]> (tasks st1)) st1))
        with (logged_failures st1).
      rewrite Hr', Hlog, Ets, take_all_but_last. simpl.
      destruct He as [p' _ [Hts Hc] _| _ [Hts Hc] _ _| -> _ Hts Hc _|e _ [Hts Hc] _];
        rewrite Hts, Ets.
      * by rewrite insert_last, take_all_but_last.
      * by rewrite insert_last, take_all_but_last.
      * rewrite insert_before_last, take_all_but_last, failures_app. simpl.
        by rewrite app_nil_r.
      * by rewrite insert_last, take_all_but_last.
  - by apply cancel_failures_logged.
  - unfold cog_unload. destruct (consume_task st) as [tid|] eqn:Hct; [|done].
    destruct (done (task_of st tid)) eqn:Hd; [done|]. simpl.
    by apply cancel_failures_logged.
  - destruct (fetch_user_cache_queues r st) as (Hc & Hts & _).
    split; [|split;
             [by apply (handle_single_flight log_delay limit (Refresh r))|]].
    + unfold newest_in_charge in *. by rewrite Hc, Hts.
    + rewrite Hts, <- Hlog.
      unfold fetch_user_cache. destruct r as [data|e].
      * destruct (fill_cache data (set_watched_users ∅ (emit EvApiGet st)))
          as [st' out] eqn:Hf.
        apply fill_cache_frame in Hf as (_ & _ & _ & _ & _ & _ & Ht & _).
        simpl in *. unfold logged_failures. rewrite Ht. simpl.
        rewrite omap_app. simpl. by rewrite app_nil_r.
      * destruct (decide (e = ClientResponseError)); logged_same.
Qed.

Lemma run_failures_logged log_delay limit evs : ∀ st,
  failures_logged st → failures_logged (run log_delay limit evs st).
Proof.
  induction evs as [|ev evs IH]; intros st H; [done|].
  apply IH. by apply handle_failures_logged.
Qed.

(** X17: in any state the cog can reach, [self._consume_task] is the
    task created last, and the exceptions that [consuming_messages] has
    logged are those of the failed tasks other than the newest, each once,
    in the order in which the tasks were created.  When the newest task
    has failed, the next message of a watched user logs its exception:
    every failure is then logged. *)
Theorem failures_are_logged_once_in_order
  (log_delay limit : Z) (evs : list event) :
  let st := run log_delay limit evs init in
  newest_in_charge st ∧
  logged_failures st = failures (take (length (tasks st) - 1) (tasks st)) ∧
  (∀ m tid e, watched m st = true → consume_task st = Some tid →
     task_of st tid = Failed e →
     logged_failures (fst (on_message m st)) = failures (tasks st)).
Proof.
  intros st.
  assert (failures_logged st) as (Hnew & Hs & Hlog).
  { apply run_failures_logged. split; [done|].
    split; [apply init_single_flight|done]. }
  split_and!; [done|done|].
  intros m tid e Hw Hct Ht.
  unfold on_message, consuming_messages. rewrite Hw, Hct, Ht. simpl.
  unfold logged_failures in *. simpl. rewrite !omap_app. simpl.
  rewrite app_nil_r, Hlog.
  destruct (newest_last st tid Hnew Hct) as (ts & t & Ets & ->).
  unfold task_of in Ht. rewrite Ets in Ht.
  rewrite list_lookup_middle in Ht by done. simpl in Ht. subst t.
  by rewrite Ets, take_all_but_last, failures_app.
Qed.

Lemma taken_in_elem log_delay limit evs : ∀ st m,
  m ∈ taken_in log_delay limit evs st →
  ∃ evs1 evs2, evs = evs1 ++ Arrive m :: evs2 ∧
               takes_in m (run log_delay limit evs1 st) = true.
Proof.
  induction evs as [|ev evs IH]; intros st m; simpl.
  - intros H. by apply elem_of_nil in H.
  - intros [Hhead|Htail]%elem_of_app.
    + destruct ev as [m'|tid r|tid| |r]; try by apply elem_of_nil in Hhead.
      destruct (takes_in m' st) eqn:Ha; [|by apply elem_of_nil in Hhead].
      apply list_elem_of_singleton in Hhead as ->. by exists [], evs.
    + destruct (IH _ _ Htail) as (evs1 & evs2 & -> & Ha).
      by exists (ev :: evs1), evs2.
Qed.

(** X18: a message that was handed to [relay_message], or that sits in
    one of the queues, was delivered to [on_message] at a moment when its
    author was in the cache, and [on_message] returned: nothing written by
    an author who was not watched on arrival is ever relayed. *)
Theorem only_messages_taken_from_watched_authors_are_relayed
  (log_delay limit : Z) (evs : list event) (m : Msg) :
  let st := run log_delay limit evs init in
  m ∈ relayed st ∨ m ∈ pending st →
  ∃ evs1 evs2,
    evs = evs1 ++ Arrive m :: evs2 ∧
    watched m (run log_delay limit evs1 init) = true ∧
    snd (on_message m (run log_delay limit evs1 init)) = Ok tt.
Proof.
  intros st Hm.
  assert (m ∈ taken_in log_delay limit evs init) as Hin.
  { pose proof (run_conserves log_delay limit evs init) as Hperm.
    simpl in Hperm. rewrite <- Hperm. fold st. by apply elem_of_app. }
  destruct (taken_in_elem _ _ _ _ _ Hin) as (evs1 & evs2 & -> & Ha).
  exists evs1, evs2. split; [done|]. unfold takes_in in Ha.
  apply andb_true_iff in Ha as [Hw Hok]. split; [done|].
  by destruct (snd (on_message m (run log_delay limit evs1 init))) as [[]|].
Qed.

Lemma only_messages_taken_from_watched_authors_are_relayed_witness :
  let evs := [Refresh (ApiData [watch_a]); Arrive A1; Resume 0 Returned;
              Resume 0 Returned] in
  (A1 ∈ relayed (run 2 3 evs init) ∨ A1 ∈ pending (run 2 3 evs init)) ∧
  ∃ evs1 evs2,
    evs = evs1 ++ Arrive A1 :: evs2 ∧
    watched A1 (run 2 3 evs1 init) = true ∧
    snd (on_message A1 (run 2 3 evs1 init)) = Ok tt.
Proof.
  intros evs.
  assert (H : A1 ∈ relayed (run 2 3 evs init) ∨ A1 ∈ pending (run 2 3 evs init)).
  { left. vm_compute. by left. }
  split; [exact H|].
  exact (only_messages_taken_from_watched_authors_are_relayed 2 3 evs A1 H).
Defined.
